(** * UET prospectus assistant: the retrieval core of [backend/agent.py]
      and the service boundary of [backend/main.py]

    A shallow embedding of the query expander, the retriever's
    deduplication, the lexical re-ranker, the domain guardrail, the
    orchestrator and the [/chat] endpoint, with the properties the
    specification states about them.

    Conventions of the embedding.
    - A Python [str] is a [string]; a character is a code point below 256.
      [lower], [isspace] and the regular expression classes agree with
      Python's on that range.
    - Python integers are [Z].
    - [print] and [traceback.print_exc] write to the console only; they are
      left out.
    - The vector index, the language model and Python's string hash are
      external: they are the fields of class [External]. A call to the
      index or the model is a function of the request and of an abstract
      world state, and may fail with an exception. *)

From Stdlib Require Import ZArith Ascii String List Bool Lia Sorting.Sorted
  Sorting.Permutation.
From stdpp Require Import base option list gmap strings pretty.

Set Warnings "-clear-no-such-hyp".

Local Open Scope string_scope.
Local Open Scope list_scope.
Local Open Scope Z_scope.

(** ** Python string primitives *)

Module Py.

Definition code (c : ascii) : N := N_of_ascii c.

(** [str.isspace] on one character: TAB..CR, FS..US, SPACE, NEL, NBSP. *)
Definition isspace (c : ascii) : bool :=
  let n := code c in
  ((9 <=? n) && (n <=? 13) || (28 <=? n) && (n <=? 32)
   || (n =? 133) || (n =? 160))%N.

(** [str.lower] on one character: A..Z and the Latin-1 capitals. *)
Definition lower_char (c : ascii) : ascii :=
  let n := code c in
  if ((65 <=? n) && (n <=? 90)
      || (192 <=? n) && (n <=? 222) && negb (n =? 215))%N
  then ascii_of_N (n + 32) else c.

(** [s.lower()] *)
Fixpoint lower (s : string) : string :=
  match s with
  | EmptyString => EmptyString
  | String c s' => String (lower_char c) (lower s')
  end.

(** [s.startswith(p)] *)
Fixpoint startswith (s p : string) : bool :=
  match p, s with
  | EmptyString, _ => true
  | String _ _, EmptyString => false
  | String b p', String a s' => if Ascii.eqb a b then startswith s' p' else false
  end.

(** [sub in s] on strings: [sub] starts at some position of [s]. *)
Fixpoint contains (sub s : string) : bool :=
  startswith s sub ||
  match s with
  | EmptyString => false
  | String _ s' => contains sub s'
  end.

(** [any(w in s for w in ws)] *)
Definition any_in (ws : list string) (s : string) : bool :=
  existsb (fun w => contains w s) ws.

Definition is_empty (s : string) : bool :=
  match s with EmptyString => true | _ => false end.

Definition push_word (w : string) (ws : list string) : list string :=
  if is_empty w then ws else w :: ws.

(** The word being read at the head of [s] and the words after it. *)
Fixpoint split_aux (s : string) : string * list string :=
  match s with
  | EmptyString => (EmptyString, [])
  | String c s' =>
      let '(w, ws) := split_aux s' in
      if isspace c then (EmptyString, push_word w ws) else (String c w, ws)
  end.

(** [s.split()]: the maximal runs of non-whitespace characters. *)
Definition split (s : string) : list string :=
  let '(w, ws) := split_aux s in push_word w ws.

Fixpoint lstrip_by (p : ascii -> bool) (s : string) : string :=
  match s with
  | EmptyString => EmptyString
  | String c s' => if p c then lstrip_by p s' else s
  end.

Fixpoint rstrip_by (p : ascii -> bool) (s : string) : string :=
  match s with
  | EmptyString => EmptyString
  | String c s' =>
      let r := rstrip_by p s' in
      if p c && is_empty r then EmptyString else String c r
  end.

(** [s.strip(chars)] for the characters selected by [p]. *)
Definition strip_by (p : ascii -> bool) (s : string) : string :=
  lstrip_by p (rstrip_by p s).

(** [s.strip()] *)
Definition strip (s : string) : string := strip_by isspace s.

(** [sep.join(parts)] *)
Fixpoint join (sep : string) (parts : list string) : string :=
  match parts with
  | [] => EmptyString
  | [x] => x
  | x :: rest => x +:+ sep +:+ join sep rest
  end.

(** [s[:n]] for a non-negative [n]. *)
Fixpoint str_take (n : nat) (s : string) : string :=
  match n, s with
  | S n', String c s' => String c (str_take n' s')
  | _, _ => EmptyString
  end.

(** [list(dict.fromkeys(l))]: the keys in first-insertion order. *)
Definition dict_fromkeys (l : list string) : list string :=
  fold_left (fun keys k => if decide (k ∈ keys) then keys else keys ++ [k]) l [].

(** [range(n)]; empty when [n <= 0]. *)
Definition range (n : Z) : list Z := map Z.of_nat (seq 0 (Z.to_nat n)).

(** [l[i:j]] for [0 <= i]. *)
Definition slice {A} (l : list A) (i j : Z) : list A :=
  firstn (Z.to_nat (j - i)) (skipn (Z.to_nat i) l).

Definition len {A} (l : list A) : Z := Z.of_nat (length l).

End Py.

Import Py.

(** ** Query expansion ([expand_query], agent.py 18-66) *)

Definition faculty_family : list string :=
  ["chairperson"; "chair person"; "head of department"; "hod"; "dean";
   "faculty"; "professor"; "lecturer"].

Definition expand_departments : list string :=
  ["mathematics"; "computer science"; "electrical"; "mechanical"; "civil";
   "chemical"; "industrial"; "architecture"; "city planning";
   "regional planning"].

Definition program_family : list string :=
  ["m.sc"; "msc"; "phd"; "bachelor"; "master"; "program"; "degree"].

Definition expand_programs : list string :=
  ["artificial intelligence"; "ai"; "mining engineering"; "transportation";
   "geological engineering"; "geotechnical"].

Definition admission_family : list string :=
  ["admission"; "apply"; "eligibility"; "requirement"].

(** The list [queries] as it stands before line 66. *)
Definition expand_candidates (original_query : string) : list string :=
  let queries := [original_query] in
  let query_lower := lower original_query in
  let queries :=
    if any_in faculty_family query_lower then
      let queries :=
        queries ++ ["faculty list " +:+ original_query;
                    "staff members " +:+ original_query] in
      match find (fun dept => contains dept query_lower) expand_departments with
      | Some dept =>
          queries ++ [dept +:+ " department faculty"; dept +:+ " chairperson head"]
      | None => queries
      end
    else queries in
  let queries :=
    if any_in program_family query_lower then
      let queries :=
        queries ++ ["program offered by department " +:+ original_query] in
      match find (fun program => contains program query_lower) expand_programs with
      | Some program => queries ++ [program +:+ " program department"]
      | None => queries
      end
    else queries in
  let queries :=
    if any_in admission_family query_lower then
      queries ++ ["admission requirements " +:+ original_query;
                  "eligibility criteria " +:+ original_query]
    else queries in
  let queries :=
    if contains "transportation" query_lower then
      queries ++ ["civil engineering transportation";
                  "transportation engineering department"]
    else queries in
  let queries :=
    if contains "geological" query_lower || contains "geotechnical" query_lower then
      queries ++ ["mining geological engineering";
                  "civil geotechnical engineering"]
    else queries in
  queries.

Definition expand_query (original_query : string) : list string :=
  firstn 4 (dict_fromkeys (expand_candidates original_query)).

(** ** Domain guardrail ([is_uet_related], agent.py 292-314) *)

Definition greetings : list string :=
  ["hi"; "hello"; "hey"; "greetings"; "good morning"; "good evening";
   "thanks"; "thank you"].

Definition uet_keywords : list string :=
  ["uet"; "university of engineering"; "lahore"; "taxila"; "faisalabad";
   "department"; "computer"; "electrical"; "mechanical"; "civil"; "chemical";
   "industrial"; "architecture"; "petroleum"; "biomedical"; "environmental";
   "textile"; "metallurgy"; "mining"; "aerospace"; "mathematics"; "physics";
   "transportation"; "geological"; "geotechnical"; "city planning";
   "regional planning";
   "course"; "admission"; "faculty"; "fee"; "program"; "degree"; "bachelor";
   "master"; "phd"; "msc"; "bs"; "engineering"; "syllabus"; "curriculum";
   "professor"; "chairperson"; "dean"; "head of department"; "hod";
   "scholarship"; "campus"; "hostel"; "library"; "artificial intelligence"].

Definition is_uet_related (query : string) : bool :=
  let query_lower := lower query in
  if existsb (fun g => startswith (strip query_lower) g) greetings
     && (len (split query_lower) <=? 3)
  then true
  else any_in uet_keywords query_lower.

(** ** Exceptions and results *)

(** The classes the handlers of this program tell apart; [str(e)] is
    [exn_msg]. *)
Inductive exn_class := ValueError | AttributeError | OtherException.

Record exn := Exn { exn_cls : exn_class; exn_msg : string }.

Inductive Res (A : Type) : Type :=
  | Ok (a : A)
  | Raise (e : exn).
Arguments Ok {A} a.
Arguments Raise {A} e.

Definition res_bind {A B} (r : Res A) (k : A -> Res B) : Res B :=
  match r with
  | Ok a => k a
  | Raise e => Raise e
  end.

(** ** Chunks as the vector index returns them *)

(** A metadata value: the ingestion writes strings ([departments],
    [section_type], the page [unknown]) and integers ([page],
    [chunk_id]). *)
Inductive meta_value :=
  | MStr (s : string)
  | MInt (n : Z).

Record Doc := { page_content : string; metadata : gmap string meta_value }.

(** [metadata.get(key, dflt)] *)
Definition meta_get (m : gmap string meta_value) (key : string)
    (dflt : meta_value) : meta_value :=
  default dflt (m !! key).

(** [v.lower()]: only strings have the method. *)
Definition meta_lower (v : meta_value) : Res string :=
  match v with
  | MStr s => Ok (lower s)
  | MInt _ => Raise (Exn AttributeError "'int' object has no attribute 'lower'")
  end.

(** A value formatted inside an f-string. *)
Definition meta_str (v : meta_value) : string :=
  match v with
  | MStr s => s
  | MInt n => pretty n
  end.

(** ** Relevance score (agent.py 116-147) *)

Definition role_query_terms : list string :=
  ["chairperson"; "faculty"; "head"; "dean"; "professor"].

Definition faculty_terms : list string :=
  ["dr."; "prof."; "chairperson"; "head of department"; "professor"; "lecturer"].

Definition dept_words : list string :=
  ["mathematics"; "computer"; "electrical"; "civil"; "mechanical"; "mining"].

(** Lines 122-127: the phrase loops, started from [score]. *)
Definition phrase_loop (query_lower content_lower : string) (score : Z) : Z :=
  fold_left
    (fun score length =>
       let words := split query_lower in
       fold_left
         (fun score i =>
            let phrase := join " " (slice words i (i + length)) in
            if contains phrase content_lower then score + length * 10 else score)
         (range (len words - length + 1)) score)
    [4; 3; 2] score.

(** The body of the loop over [all_docs]: the score of one chunk. *)
Definition score_doc (query_lower : string) (query_keywords : gset string)
    (doc : Doc) : Res Z :=
  let content_lower := lower (page_content doc) in
  let score := 0 in
  let score := phrase_loop query_lower content_lower score in
  let doc_words : gset string := list_to_set (split content_lower) in
  let keyword_matches := query_keywords ∩ doc_words in
  let score := score + Z.of_nat (size keyword_matches) * 2 in
  let score :=
    if any_in role_query_terms query_lower then
      fold_left
        (fun score term =>
           if contains term content_lower then score + 15 else score)
        faculty_terms score
    else score in
  res_bind (meta_lower (meta_get (metadata doc) "departments" (MStr EmptyString)))
    (fun dept_meta =>
  let score :=
    fold_left
      (fun score dept_word =>
         if contains dept_word query_lower
            && contains dept_word (content_lower +:+ " " +:+ dept_meta)
         then score + 10 else score)
      dept_words score in
  Ok score).

(** The relevance score of chunk [doc] for [query]. *)
Definition relevance (query : string) (doc : Doc) : Res Z :=
  let query_lower := lower query in
  score_doc query_lower (list_to_set (split query_lower)) doc.

(** ** Re-ranking (agent.py 114-151) *)

(** The loop of lines 115-147: [scored_docs], or the first exception. *)
Fixpoint score_all (query_lower : string) (query_keywords : gset string)
    (all_docs : list Doc) : Res (list (Z * Doc)) :=
  match all_docs with
  | [] => Ok []
  | doc :: rest =>
      res_bind (score_doc query_lower query_keywords doc) (fun score =>
      res_bind (score_all query_lower query_keywords rest) (fun scored =>
      Ok ((score, doc) :: scored)))
  end.

(** [list.sort(reverse=True, key=lambda x: x[0])]: Python's sort is stable,
    also under [reverse]. An entry is inserted in front of the entries
    already placed whose key is not larger. *)
Fixpoint insert_desc (x : Z * Doc) (l : list (Z * Doc)) : list (Z * Doc) :=
  match l with
  | [] => [x]
  | y :: l' => if fst x <? fst y then y :: insert_desc x l' else x :: l
  end.

Definition sort_desc (l : list (Z * Doc)) : list (Z * Doc) :=
  foldr insert_desc [] l.

(** Lines 150-151. *)
Definition top_of (scored_docs : list (Z * Doc)) : list Doc :=
  map snd (firstn 6 (sort_desc scored_docs)).

(** Step 3 as a whole: [top_docs] for [query] and the unique chunks. *)
Definition rerank (query : string) (all_docs : list Doc) : Res (list Doc) :=
  let query_lower := lower query in
  let query_keywords : gset string := list_to_set (split query_lower) in
  res_bind (score_all query_lower query_keywords all_docs) (fun scored_docs =>
  Ok (top_of scored_docs)).

(** ** Context assembly (agent.py 157-183) *)

Record Source := {
  src_page : meta_value;
  src_department : meta_value;
  src_section : meta_value
}.

Record SearchResult := {
  found : bool;
  context : string;
  sources : list Source;
  doc_count : option Z
}.

Definition NL : string := String (ascii_of_N 10) EmptyString.

(** [enumerate(l, start)] *)
Fixpoint enumerate {A} (l : list A) (start : Z) : list (Z * A) :=
  match l with
  | [] => []
  | x :: l' => (start, x) :: enumerate l' (start + 1)
  end.

(** One round of the loop of lines 160-174 on [(context_parts, sources)]. *)
Definition context_step (acc : list string * list Source) (item : Z * Doc)
    : list string * list Source :=
  let '(context_parts, sources) := acc in
  let '(i, doc) := item in
  let content := strip (page_content doc) in
  let dept := meta_get (metadata doc) "departments" (MStr "General") in
  let section := meta_get (metadata doc) "section_type" (MStr "general_info") in
  let page := meta_get (metadata doc) "page" (MStr "unknown") in
  (context_parts ++
     ["[Source " +:+ pretty i +:+ " - " +:+ meta_str dept +:+ " - Page "
        +:+ meta_str page +:+ "]" +:+ NL +:+ content +:+ NL],
   sources ++
     [{| src_page := page; src_department := dept; src_section := section |}]).

(** Step 4 and the result of lines 178-183. *)
Definition build_result (top_docs : list Doc) : SearchResult :=
  let '(context_parts, sources) :=
    fold_left context_step (enumerate top_docs 1) ([], []) in
  {| found := true;
     context := join NL context_parts;
     sources := sources;
     doc_count := Some (len top_docs) |}.

Definition not_found_result : SearchResult :=
  {| found := false;
     context := "No relevant information found in the prospectus.";
     sources := [];
     doc_count := None |}.

Definition search_error_result (e : exn) : SearchResult :=
  {| found := false;
     context := "Search error: " +:+ exn_msg e;
     sources := [];
     doc_count := None |}.

(** ** Retriever deduplication (agent.py 96-101) *)

(** One round of the inner loop on [(all_docs, seen_content)];
    [hash] stands for Python's [hash] on strings. *)
Definition dedup_step (hash : string -> Z) (acc : list Doc * gset Z) (doc : Doc)
    : list Doc * gset Z :=
  let '(all_docs, seen_content) := acc in
  let content_hash := hash (str_take 100 (page_content doc)) in
  if decide (content_hash ∉ seen_content)
  then (all_docs ++ [doc], {[content_hash]} ∪ seen_content)
  else (all_docs, seen_content).

(** The inner loop over the chunks [docs] of one expansion query. *)
Definition dedup_into (hash : string -> Z) (docs : list Doc)
    (acc : list Doc * gset Z) : list Doc * gset Z :=
  fold_left (dedup_step hash) docs acc.

(** ** The external collaborators and the monad of a request *)

(** What the core consumes: Python's string hash, the diversity-aware
    retriever of the vector index ([as_retriever(...).invoke(q)]) and the
    language model ([llm.invoke(prompt).content]). [W] is the state of the
    outside world; a call may change it and may raise. *)
Class External (W : Type) := {
  py_hash : string -> Z;
  retriever_invoke : string -> W -> Res (list Doc) * W;
  llm_invoke : string -> W -> Res string * W
}.

(** The calls made to the collaborators, in order. *)
Inductive Event :=
  | Retrieved (q : string)
  | Generated (prompt : string).

Record St (W : Type) := mkSt { world : W; trace : list Event }.
Arguments mkSt {W} world trace.
Arguments world {W} s.
Arguments trace {W} s.

(** State passing with exceptions. *)
Definition M (W A : Type) : Type := St W -> Res A * St W.

Definition ret {W A} (a : A) : M W A := fun st => (Ok a, st).

Definition bind {W A B} (m : M W A) (k : A -> M W B) : M W B :=
  fun st =>
    match m st with
    | (Ok a, st') => k a st'
    | (Raise e, st') => (Raise e, st')
    end.

(** [try: m  except Exception as e: h e] *)
Definition try_catch {W A} (m : M W A) (h : exn -> M W A) : M W A :=
  fun st =>
    match m st with
    | (Ok a, st') => (Ok a, st')
    | (Raise e, st') => h e st'
    end.

Definition lift {W A} (r : Res A) : M W A := fun st => (r, st).

Notation "x <- c ;; k" := (bind c (fun x => k))
  (at level 100, c at next level, right associativity).

Section Agent.
Context {W : Type} {E : External W}.

Definition invoke_retriever (q : string) : M W (list Doc) :=
  fun st =>
    let '(r, w) := retriever_invoke q (world st) in
    (r, mkSt w (trace st ++ [Retrieved q])).

Definition invoke_llm (prompt : string) : M W string :=
  fun st =>
    let '(r, w) := llm_invoke prompt (world st) in
    (r, mkSt w (trace st ++ [Generated prompt])).

(** Step 2 (lines 81-101): the loop over the expansion queries. *)
Fixpoint retrieve_loop (queries : list string) (acc : list Doc * gset Z)
    : M W (list Doc * gset Z) :=
  match queries with
  | [] => ret acc
  | q :: rest =>
      docs <- invoke_retriever q ;;
      retrieve_loop rest (dedup_into py_hash docs acc)
  end.

(** [search_prospectus] (agent.py 69-191). *)
Definition search_prospectus (query : string) : M W SearchResult :=
  try_catch
    (let queries := expand_query query in
     acc <- retrieve_loop queries ([], ∅) ;;
     let all_docs := fst acc in
     match all_docs with
     | [] => ret not_found_result
     | _ :: _ =>
         top_docs <- lift (rerank query all_docs) ;;
         ret (build_result top_docs)
     end)
    (fun e => ret (search_error_result e)).

End Agent.

(** ** Orchestrator ([run_enhanced_agent], agent.py 194-289) *)

Definition factual_indicators : list string :=
  ["which department"; "what department"; "who is"; "is there"; "tell me about";
   "faculty"; "chairperson"; "dean"; "head of department"; "professor";
   "m.sc"; "msc"; "phd"; "bachelor"; "master"; "program"; "offers";
   "admission"; "eligibility"; "requirement"; "apply";
   "how many"; "list of"; "what are"].

Definition should_search_directly (user_query : string) : bool :=
  any_in factual_indicators (lower user_query).

Definition couldnt_find_direct : string :=
  "I couldn't find specific information about that in the UET prospectus. Could you rephrase your question or ask about a specific department?".

Definition couldnt_find_rephrase : string :=
  "I couldn't find specific information about that in the UET prospectus. Could you rephrase your question?".

(** The grounding prompt of lines 221-237. *)
Definition direct_prompt (user_query context : string) : string :=
  "You are answering a question about UET based on the official prospectus.

USER QUESTION: " +:+ user_query +:+ "

CONTEXT FROM PROSPECTUS:
" +:+ context +:+ "

CRITICAL INSTRUCTIONS:
1. Answer the question DIRECTLY using ONLY the information in the context above.
2. If asked about faculty, chairperson, or dean, give the EXACT names from the context.
3. If asked about which department offers a program, state the EXACT department name from the context.
4. Do NOT confuse different departments - pay attention to department names in the context.
5. Be specific with names, departments, and details.
6. If the context mentions multiple departments, make it clear which information belongs to which department.
7. Keep your answer focused and accurate.

ANSWER:".

(** The decision prompt of lines 243-250. *)
Definition decision_prompt (user_query : string) : string :=
  "You are the UET Prospectus AI Assistant.

USER QUERY: " +:+ user_query +:+ "

If this is a greeting, respond naturally.
If this asks for UET information, output: Action: Search [your search query]

Decision:".

(** The grounding prompt of lines 267-276. *)
Definition search_prompt (user_query context : string) : string :=
  "Based on the UET prospectus, answer this question accurately:

USER QUESTION: " +:+ user_query +:+ "

CONTEXT:
" +:+ context +:+ "

Give a direct, accurate answer using only the information provided. Be specific with names and departments.

ANSWER:".

(** The prompt of line 287. *)
Definition fallback_prompt (user_query context : string) : string :=
  "Answer based on this context: " +:+ context +:+ NL +:+ NL +:+ "Question: "
    +:+ user_query.

(** *** The directive pattern (line 256)
    [re.search(r"Action:\s*Search\s*\[(.+?)\]", response,
    re.IGNORECASE | re.DOTALL)], giving [match.group(1)]. *)

(** A literal matched without regard to case at the head of [s]; the rest
    of [s] after it. *)
Fixpoint match_ci (lit s : string) : option string :=
  match lit, s with
  | EmptyString, _ => Some s
  | String _ _, EmptyString => None
  | String p lit', String c s' =>
      if Ascii.eqb (lower_char c) (lower_char p) then match_ci lit' s' else None
  end.

(** The characters in front of the first closing bracket of [s]. *)
Fixpoint until_bracket (s : string) : option string :=
  match s with
  | EmptyString => None
  | String c s' =>
      if Ascii.eqb c "]" then Some EmptyString
      else String c <$> until_bracket s'
  end.

(** The pattern anchored at the head of [s]. Neither [S] nor the opening
    bracket is whitespace, so each [\s*] takes the whole run of whitespace;
    the lazy group takes one character, then stops at the first closing
    bracket. *)
Definition match_action_here (s : string) : option string :=
  s1 ← match_ci "action:" s;
  s2 ← match_ci "search" (lstrip_by isspace s1);
  match lstrip_by isspace s2 with
  | String "[" (String c rest) => String c <$> until_bracket rest
  | _ => None
  end.

(** The leftmost match. *)
Fixpoint re_search_action (s : string) : option string :=
  match match_action_here s with
  | Some g => Some g
  | None =>
      match s with
      | EmptyString => None
      | String _ s' => re_search_action s'
      end
  end.

Definition refusal_phrases : list string := ["don't have"; "cannot"; "not sure"].

Definition dquote : ascii := ascii_of_N 34.
Definition squote : ascii := ascii_of_N 39.

(** ** Entry point and service boundary *)

Definition empty_prompt_message : string :=
  "Please ask me a question about UET.".

Definition out_of_domain_message : string :=
  "I'm specialized in answering questions about UET departments, programs, admissions, and facilities. Please ask me about these topics!".

Definition apology_message : string :=
  "I encountered an error while processing your question. Please try rephrasing.".

(** [ChatResponse], without the wall-clock [processing_time]. *)
Record ChatResponse := { response : string; status : string }.

Inductive HttpResponse :=
  | Http200 (body : ChatResponse)
  | HttpError (status_code : Z) (detail : string).

(** [ChatRequest]: the length bounds of [Field] on the submitted string,
    then [validate_message]; the validated field is the trimmed message. *)
Definition validate_chat_request (message : string) : Res string :=
  if (String.length message <? 1)%nat || (500 <? String.length message)%nat then
    Raise (Exn ValueError "String length out of bounds")
  else if is_empty message || is_empty (strip message) then
    Raise (Exn ValueError "Message cannot be empty")
  else Ok (strip message).

Section Orchestrator.
Context {W : Type} {E : External W}.

(** [run_enhanced_agent] (agent.py 194-289). *)
Definition run_enhanced_agent (user_query : string) : M W string :=
  if should_search_directly user_query then
    search_results <- search_prospectus user_query ;;
    if negb (found search_results) then ret couldnt_find_direct
    else
      answer <- invoke_llm (direct_prompt user_query (context search_results)) ;;
      ret (strip answer)
  else
    response <- invoke_llm (decision_prompt user_query) ;;
    match re_search_action response with
    | Some group1 =>
        let search_query :=
          strip_by (Ascii.eqb squote) (strip_by (Ascii.eqb dquote) (strip group1)) in
        search_results <- search_prospectus search_query ;;
        if negb (found search_results) then ret couldnt_find_rephrase
        else
          answer <- invoke_llm (search_prompt user_query (context search_results)) ;;
          ret (strip answer)
    | None =>
        let response_lower := lower response in
        if any_in refusal_phrases response_lower then
          search_results <- search_prospectus user_query ;;
          if found search_results then
            answer <- invoke_llm
                        (fallback_prompt user_query (context search_results)) ;;
            ret (strip answer)
          else ret response
        else ret response
    end.

(** [process_query] (agent.py 317-333). *)
Definition process_query (user_query : string) : M W string :=
  let user_query := strip user_query in
  if is_empty user_query then ret empty_prompt_message
  else if negb (is_uet_related user_query) then ret out_of_domain_message
  else try_catch (run_enhanced_agent user_query) (fun e => ret apology_message).

(** [chat_endpoint] (main.py 58-89) on a validated request. *)
Definition chat_endpoint (request_message : string) : M W HttpResponse :=
  fun st =>
    match process_query request_message st with
    | (Ok response_text, st') =>
        (Ok (Http200 {| response := response_text; status := "success" |}), st')
    | (Raise e, st') =>
        match exn_cls e with
        | ValueError => (Ok (HttpError 400 (exn_msg e)), st')
        | _ =>
            (Ok (HttpError 500
                   ("An error occurred while processing your request: "
                      +:+ exn_msg e)), st')
        end
    end.

(** The [/chat] route: the framework validates the body against
    [ChatRequest] and answers 422 itself when that fails (its detail, a
    list of validation errors, is reduced to a message here); otherwise it
    calls the handler. *)
Definition post_chat (message : string) : M W HttpResponse :=
  match validate_chat_request message with
  | Raise e => ret (HttpError 422 (exn_msg e))
  | Ok validated => chat_endpoint validated
  end.

End Orchestrator.

(** ** Ingestion metadata ([ingest.py] 13-58 and 99-112) *)

(** [DEPARTMENT_KEYWORDS], in the order of the dictionary. *)
Definition DEPARTMENT_KEYWORDS : list (string * list string) :=
  [("Computer Science",
    ["computer science"; "cs department"; "software"; "programming";
     "algorithm"; "data structure"]);
   ("Electrical Engineering",
    ["electrical engineering"; "ee department"; "electronics"; "circuits";
     "power systems"]);
   ("Mechanical Engineering",
    ["mechanical engineering"; "me department"; "thermodynamics"; "mechanics";
     "manufacturing"]);
   ("Civil Engineering",
    ["civil engineering"; "ce department"; "structures"; "construction";
     "surveying"]);
   ("Chemical Engineering",
    ["chemical engineering"; "chemistry"; "process engineering";
     "chemical processes"]);
   ("Industrial Engineering",
    ["industrial engineering"; "ie department"; "operations"; "production"]);
   ("Architecture",
    ["architecture"; "architectural"; "design studio"; "building design"]);
   ("Petroleum Engineering", ["petroleum"; "oil"; "gas"; "reservoir"]);
   ("Biomedical Engineering", ["biomedical"; "medical devices"; "biomechanics"]);
   ("Environmental Engineering",
    ["environmental"; "water treatment"; "pollution"]);
   ("Textile Engineering", ["textile"; "fabric"; "fiber"]);
   ("Metallurgy", ["metallurgy"; "materials science"; "metals"]);
   ("Mining Engineering", ["mining"; "mineral extraction"]);
   ("Aerospace Engineering", ["aerospace"; "aeronautics"; "aircraft"])].

(** [extract_department_metadata] (ingest.py 30-39). *)
Definition extract_department_metadata (text : string) : list string :=
  let text_lower := lower text in
  let departments :=
    fold_left
      (fun departments item =>
         if any_in (snd item) text_lower then departments ++ [fst item]
         else departments)
      DEPARTMENT_KEYWORDS [] in
  match departments with
  | [] => ["General"]
  | _ :: _ => departments
  end.

(** [extract_section_type] (ingest.py 41-58). *)
Definition extract_section_type (text : string) : string :=
  let text_lower := lower text in
  if any_in ["admission"; "eligibility"; "requirement"; "criteria"] text_lower
  then "admissions"
  else if any_in ["fee"; "tuition"; "cost"; "charges"] text_lower
  then "fees"
  else if any_in ["course"; "syllabus"; "curriculum"; "semester"] text_lower
  then "curriculum"
  else if any_in ["faculty"; "professor"; "dr."; "lecturer";
                  "head of department"] text_lower
  then "faculty"
  else if any_in ["scholarship"; "financial aid"; "merit"] text_lower
  then "financial_aid"
  else if any_in ["hostel"; "accommodation"; "residence"] text_lower
  then "facilities"
  else "general_info".

(** One round of the tagging loop of [ingest_data] (ingest.py 99-112) on
    the chunk [chunk] with index [i]. *)
Definition tag_chunk (i : Z) (chunk : Doc) : Doc :=
  let departments := extract_department_metadata (page_content chunk) in
  let metadata :=
    <["departments" := MStr (join "," departments)]> (metadata chunk) in
  let metadata :=
    <["section_type" := MStr (extract_section_type (page_content chunk))]>
      metadata in
  let metadata := <["chunk_id" := MInt i]> metadata in
  let metadata :=
    match metadata !! "page" with
    | None => <["page" := MStr "unknown"]> metadata
    | Some _ => metadata
    end in
  {| page_content := page_content chunk; metadata := metadata |}.

(** The tagging loop over [enumerate(splits)]. *)
Definition tag_chunks (splits : list Doc) : list Doc :=
  map (fun item => tag_chunk (fst item) (snd item)) (enumerate splits 0).

(** ** Inputs of the examples *)

Definition chair_query : string :=
  "Who is the chairperson of the mathematics department?".

(** Deduplication in first-seen order, said directly: an element is kept
    and its later copies are dropped. *)
Fixpoint first_seen (l : list string) : list string :=
  match l with
  | [] => []
  | x :: l' => x :: filter (fun y => y ≠ x) (first_seen l')
  end.

(** The deduplication key of a chunk: the hash of the first 100
    characters of its text. *)
Definition chunk_key (hash : string -> Z) (doc : Doc) : Z :=
  hash (str_take 100 (page_content doc)).

(** The unique collection built from the chunks [docs], retrieved in this
    order over all expansion queries. *)
Definition unique_chunks (hash : string -> Z) (docs : list Doc) : list Doc :=
  fst (dedup_into hash docs ([], ∅)).

(** The chunks of [docs] whose key is neither in [seen] nor carried by an
    earlier chunk of [docs]. *)
Fixpoint first_by_key (key : Doc -> Z) (seen : gset Z) (docs : list Doc)
    : list Doc :=
  match docs with
  | [] => []
  | d :: ds =>
      if decide (key d ∈ seen) then first_by_key key seen ds
      else d :: first_by_key key ({[key d]} ∪ seen) ds
  end.

(** A stand-in for the string hash: a polynomial hash modulo 2^61 - 1. *)
Definition stub_hash (s : string) : Z :=
  fold_left (fun h c => (h * 31 + Z.of_N (code c)) mod 2305843009213693951)
    (list_ascii_of_string s) 7.

Definition ten : string := "0123456789".

(** A text of 100 characters. *)
Definition hundred : string :=
  ten +:+ ten +:+ ten +:+ ten +:+ ten +:+ ten +:+ ten +:+ ten +:+ ten +:+ ten.

Definition chunk_a : Doc :=
  {| page_content := hundred +:+ " first tail"; metadata := ∅ |}.
Definition chunk_b : Doc :=
  {| page_content := hundred +:+ " second tail, another page";
     metadata := {[ "page" := MInt 7 ]} |}.
Definition chunk_c : Doc :=
  {| page_content := "Dr. Ali Khan, Chairperson, Department of Mathematics";
     metadata := {[ "departments" := MStr "General" ]} |}.

(** The [departments] tag of a chunk is a string whenever it is present,
    as the ingestion writes it. *)
Definition well_tagged (doc : Doc) : Prop :=
  match metadata doc !! "departments" with
  | Some (MInt _) => False
  | _ => True
  end.

(** The [departments] tag, empty when absent. *)
Definition dept_tag (doc : Doc) : string :=
  match metadata doc !! "departments" with
  | Some (MStr s) => s
  | _ => EmptyString
  end.

(** The order of the re-ranked list: the score does not increase. *)
Definition score_ge (a b : Z * Doc) : Prop := fst b <= fst a.



(** A submitted message the service treats as malformed: empty after
    trimming, or of a length outside 1..500. *)
Definition malformed (message : string) : bool :=
  is_empty (strip message)
  || (String.length message <? 1)%nat || (500 <? String.length message)%nat.

Definition is_retrieval (ev : Event) : Prop :=
  match ev with Retrieved _ => True | Generated _ => False end.

Definition offline_error : exn := Exn OtherException "model offline".

(** A stub of the collaborators: an index that holds nothing and a
    language model that fails on every call. *)
Definition empty_index_offline_llm : External unit :=
  {| py_hash := stub_hash;
     retriever_invoke := fun _ w => (Ok [], w);
     llm_invoke := fun _ w => (Raise offline_error, w) |}.

Definition st0 : St unit := mkSt tt [].

(** *** The additive scoring formula, term by term *)

Definition sumZ (l : list Z) : Z := foldr Z.add 0 l.

(** The contiguous windows of [n] words of [ws], from left to right
    ([n] positive). *)
Fixpoint windows (n : nat) (ws : list string) : list (list string) :=
  match ws with
  | [] => []
  | _ :: ws' =>
      (if (n <=? length ws)%nat then [take n ws] else []) ++ windows n ws'
  end.

(** Phrase overlap: [L * 10] for each length [L] of 4, 3, 2 and each
    window of [L] words of the query whose words, joined by single spaces,
    occur in the chunk text. *)
Definition phrase_overlap (query_lower content_lower : string) : Z :=
  sumZ (flat_map
          (fun L =>
             map (fun _ => L * 10)
               (filter (fun w => contains (join " " w) content_lower = true)
                  (windows (Z.to_nat L) (split query_lower))))
          [4; 3; 2]).

(** Keyword overlap: twice the number of tokens common to the query and
    the chunk text. *)
Definition keyword_overlap (query_lower content_lower : string) : Z :=
  2 * Z.of_nat (size ((list_to_set (split query_lower) : gset string)
                      ∩ list_to_set (split content_lower))).

(** Role-term boost: for a query with a role keyword, 15 for each role
    indicator that occurs in the chunk text. *)
Definition role_boost (query_lower content_lower : string) : Z :=
  if any_in role_query_terms query_lower then
    sumZ (map (fun _ => 15)
            (filter (fun term => contains term content_lower = true)
               faculty_terms))
  else 0.

(** Department boost: 10 for each fragment that occurs in the query and
    in the chunk text or the department tag. *)
Definition dept_boost (query_lower content_lower dept_lower : string) : Z :=
  sumZ (map (fun _ => 10)
          (filter (fun frag =>
                     contains frag query_lower = true
                     ∧ (contains frag content_lower = true
                        ∨ contains frag dept_lower = true))
             dept_words)).

(** [c] does not occur in [s]. *)
Fixpoint lacks (c : ascii) (s : string) : bool :=
  match s with
  | EmptyString => true
  | String x s' => negb (Ascii.eqb x c) && lacks c s'
  end.

(** ** Notions used by the further properties *)

(** The section types of the data model. *)
Definition section_types : list string :=
  ["admissions"; "fees"; "curriculum"; "faculty"; "financial_aid";
   "facilities"; "general_info"].

Definition department_names : list string := map fst DEPARTMENT_KEYWORDS.

(** The departments one of whose keywords occurs in the lowercased text,
    in dictionary order. *)
Definition matched_departments (text : string) : list string :=
  map fst (filter (fun item => any_in (snd item) (lower text) = true)
             DEPARTMENT_KEYWORDS).

(** Some keyword family of [expand_query] matches the lowercased query. *)
Definition expansion_triggered (query : string) : bool :=
  any_in faculty_family (lower query)
  || any_in program_family (lower query)
  || any_in admission_family (lower query)
  || contains "transportation" (lower query)
  || contains "geological" (lower query)
  || contains "geotechnical" (lower query).

(** The exception raised by [.lower()] on an integer tag. *)
Definition int_lower_error : exn :=
  Exn AttributeError "'int' object has no attribute 'lower'".

(** A chunk with its text lowercased. *)
Definition lower_doc (doc : Doc) : Doc :=
  {| page_content := lower (page_content doc); metadata := metadata doc |}.

Definition is_generation (ev : Event) : Prop :=
  match ev with Generated _ => True | Retrieved _ => False end.

(** A stub of the collaborators: an index that fails on every call and a
    language model that answers every prompt the same way. *)
Definition failing_index : External unit :=
  {| py_hash := stub_hash;
     retriever_invoke :=
       fun _ w => (Raise (Exn OtherException "index offline"), w);
     llm_invoke := fun _ w => (Ok "Hello! How can I help you?", w) |}.

(** The calls of one request: at most one generation, then at most 4
    retrievals, then at most one generation. *)
Definition within_budget (before after : list Event) : Prop :=
  ∃ pre rs post,
    after = before ++ pre ++ rs ++ post
    ∧ (length pre ≤ 1)%nat ∧ Forall is_generation pre
    ∧ (length rs ≤ 4)%nat ∧ Forall is_retrieval rs
    ∧ (length post ≤ 1)%nat ∧ Forall is_generation post.

(** A stub of the collaborators: an empty index and a language model
    that answers every prompt with a search directive. *)
Definition directive_llm : External unit :=
  {| py_hash := stub_hash;
     retriever_invoke := fun _ w => (Ok [], w);
     llm_invoke := fun _ w => (Ok "Action: Search [ hostel rules ]", w) |}.

(** The search query taken from the group of the directive (line 259). *)
Definition clean_terms (group1 : string) : string :=
  strip_by (Ascii.eqb squote) (strip_by (Ascii.eqb dquote) (strip group1)).

(** ** What the index returned during a search *)

Section Retrieved.
Context {W : Type} {E : External W}.

(** The chunks the index returns for [queries], asked in this order from
    the world [w], up to the first call that raises: the stream the
    deduplication loop reads. *)
Fixpoint retrieved_stream (queries : list string) (w : W) : list Doc :=
  match queries with
  | [] => []
  | q :: rest =>
      match retriever_invoke q w with
      | (Ok docs, w') => docs ++ retrieved_stream rest w'
      | (Raise _, _) => []
      end
  end.

(** The queries of [queries] that reach the index, asked in this order
    from the world [w]: each one up to and including the first whose call
    raises. *)
Fixpoint issued_queries (queries : list string) (w : W) : list string :=
  match queries with
  | [] => []
  | q :: rest =>
      q :: match retriever_invoke q w with
           | (Ok _, w') => issued_queries rest w'
           | (Raise _, _) => []
           end
  end.

End Retrieved.

(** A stub of the collaborators: an index that returns the same three
    chunks for every query, and a language model that answers every
    prompt the same way. *)
Definition three_chunk_index : External unit :=
  {| py_hash := stub_hash;
     retriever_invoke := fun _ w => (Ok [chunk_a; chunk_c; chunk_b], w);
     llm_invoke := fun _ w => (Ok "The dean is Dr. Ali Khan.", w) |}.

(** A chunk whose [departments] tag is an integer. *)
Definition int_tagged (doc : Doc) : Prop :=
  ∃ n, metadata doc !! "departments" = Some (MInt n).

(** * Properties *)

(** ** Strings *)

Lemma lstrip_by_idem p s : lstrip_by p (lstrip_by p s) = lstrip_by p s.
Proof.
  induction s as [|c s IH]; simpl; [done|].
  destruct (p c) eqn:Hc; [done|]. simpl. by rewrite Hc.
Qed.

Lemma rstrip_by_idem p s : rstrip_by p (rstrip_by p s) = rstrip_by p s.
Proof.
  induction s as [|c s IH]; simpl; [done|].
  destruct (p c && is_empty (rstrip_by p s)) eqn:Hc; [done|].
  simpl. by rewrite IH, Hc.
Qed.

Lemma rstrip_lstrip_by p s :
  rstrip_by p (lstrip_by p s) = lstrip_by p (rstrip_by p s).
Proof.
  induction s as [|c s IH]; simpl; [done|].
  destruct (p c) eqn:Hc; simpl.
  - rewrite IH. destruct (is_empty (rstrip_by p s)) eqn:He; simpl.
    + by destruct (rstrip_by p s).
    + by rewrite Hc.
  - by rewrite Hc.
Qed.

Lemma strip_by_idem p s : strip_by p (strip_by p s) = strip_by p s.
Proof.
  unfold strip_by.
  by rewrite rstrip_lstrip_by, lstrip_by_idem, rstrip_by_idem.
Qed.

Lemma strip_idem s : strip (strip s) = strip s.
Proof. apply strip_by_idem. Qed.

Lemma append_cons c (a b : string) : String c a +:+ b = String c (a +:+ b).
Proof. reflexivity. Qed.

Lemma contains_cons f x s :
  contains f (String x s) = startswith (String x s) f || contains f s.
Proof. reflexivity. Qed.

Lemma startswith_app_sep c b f : ∀ a,
  lacks c f = true →
  startswith (a +:+ String c b) f = startswith a f.
Proof.
  induction f as [|f0 f IH]; intros a Hf.
  - by destruct a.
  - simpl in Hf. apply andb_prop in Hf as [Hf0 Hf].
    destruct a as [|x a].
    + simpl. rewrite Ascii.eqb_sym. by apply negb_true_iff in Hf0 as ->.
    + rewrite append_cons. simpl. destruct (Ascii.eqb x f0); [by apply IH|done].
Qed.

(** A fragment without the separator occurs in two texts joined by the
    separator exactly when it occurs in one of them. *)
Lemma contains_app_sep c f a b :
  lacks c f = true →
  contains f (a +:+ String c b) = contains f a || contains f b.
Proof.
  intros Hf. induction a as [|x a IH].
  - change (EmptyString +:+ String c b) with (String c b).
    rewrite contains_cons.
    change (String c b) with (EmptyString +:+ String c b) at 1.
    rewrite startswith_app_sep by done.
    cbn [contains]. by rewrite orb_false_r.
  - rewrite append_cons, !contains_cons, IH.
    change (String x (a +:+ String c b)) with (String x a +:+ String c b).
    rewrite startswith_app_sep by done. by rewrite orb_assoc.
Qed.

Lemma startswith_lower p : ∀ s,
  startswith s p = true → startswith (lower s) (lower p) = true.
Proof.
  induction p as [|b p IH]; intros [|a s]; simpl; try done.
  destruct (Ascii.eqb_spec a b) as [->|]; [|done].
  rewrite Ascii.eqb_refl. apply IH.
Qed.

Lemma contains_lower p s :
  contains p s = true → contains (lower p) (lower s) = true.
Proof.
  induction s as [|a s IH].
  - cbn [contains lower]. rewrite !orb_false_r. apply (startswith_lower p EmptyString).
  - rewrite contains_cons. intros [H|H]%orb_true_iff.
    + apply (startswith_lower p) in H. cbn [lower] in *.
      rewrite contains_cons. by rewrite H.
    + cbn [lower]. rewrite contains_cons, IH by done. apply orb_true_r.
Qed.

(** ** Lists *)

Lemma filter_all {A} (P : A → Prop) `{!∀ x, Decision (P x)} (l : list A) :
  Forall P l → filter P l = l.
Proof.
  induction 1 as [|x l Hx _ IH]; [done|].
  by rewrite filter_cons_True, IH.
Qed.

Lemma filter_none {A} (P : A → Prop) `{!∀ x, Decision (P x)} (l : list A) :
  Forall (fun x => ¬ P x) l → filter P l = [].
Proof.
  induction 1 as [|x l Hx _ IH]; [done|].
  by rewrite filter_cons_False.
Qed.

(** ** Query expansion *)

Lemma dict_fromkeys_go_spec l : ∀ keys,
  NoDup keys →
  fold_left (fun keys k => if decide (k ∈ keys) then keys else keys ++ [k]) l keys
  = keys ++ filter (fun y => y ∉ keys) (first_seen l).
Proof.
  induction l as [|x l IH]; intros keys Hnd; simpl.
  - by rewrite filter_nil, app_nil_r.
  - destruct (decide (x ∈ keys)) as [Hin|Hin].
    + rewrite IH by done. f_equal.
      rewrite filter_cons_False by (by intros []).
      rewrite list_filter_filter. apply list_filter_iff.
      intros y. split; [|tauto]. intros Hy. split; [done|congruence].
    + rewrite IH.
      2:{ apply NoDup_app. repeat split; [done| |apply NoDup_singleton].
          intros y Hy ->%list_elem_of_singleton. done. }
      rewrite filter_cons_True by done.
      rewrite <- (assoc_L (++)). simpl. do 2 f_equal.
      rewrite list_filter_filter. apply list_filter_iff.
      intros y. rewrite elem_of_app, list_elem_of_singleton. tauto.
Qed.

Lemma dict_fromkeys_first_seen l : dict_fromkeys l = first_seen l.
Proof.
  unfold dict_fromkeys. rewrite dict_fromkeys_go_spec by constructor.
  simpl. apply filter_all, Forall_forall. intros y _. apply not_elem_of_nil.
Qed.

Lemma first_seen_NoDup l : NoDup (first_seen l).
Proof.
  induction l as [|x l IH]; simpl; constructor.
  - rewrite list_elem_of_filter. tauto.
  - by apply NoDup_filter.
Qed.

Lemma first_seen_subseteq l : first_seen l ⊆ l.
Proof.
  induction l as [|x l IH]; simpl; [done|].
  intros y [->|Hy]%elem_of_cons; [left|right].
  apply IH. by apply list_elem_of_filter in Hy as [_ ?].
Qed.

Lemma append_nonempty_l (a b : string) : a ≠ EmptyString → a +:+ b ≠ EmptyString.
Proof. destruct a; [done|]. intros _. discriminate. Qed.

Lemma append_nonempty_r (a b : string) : b ≠ EmptyString → a +:+ b ≠ EmptyString.
Proof. destruct a; [done|]. intros _. discriminate. Qed.

(** The candidate list starts with the query as given, and every
    synthetic query is non-empty. *)
Lemma expand_candidates_shape q :
  ∃ rest, expand_candidates q = q :: rest
          ∧ Forall (fun s => s ≠ EmptyString) rest.
Proof.
  unfold expand_candidates.
  repeat case_match; simpl; eexists; (split; [reflexivity|]);
    repeat (apply Forall_cons; split;
            [first [ by apply append_nonempty_l
                   | by apply append_nonempty_r
                   | done ] |]);
    apply Forall_nil_2.
Qed.

Lemma length_take_le {A} (l : list A) n : (length (take n l) ≤ n)%nat.
Proof. rewrite length_take. lia. Qed.

(** C4 (as amended). For every non-empty query, [expand_query] returns
    between 1 and 4 pairwise distinct, non-empty strings: the candidates
    deduplicated in first-seen order and cut to 4. Its first element is the
    query exactly as given; the expander does not trim. *)
Theorem expand_query_shape (q : string) :
  q ≠ EmptyString →
  (1 ≤ length (expand_query q) ≤ 4)%nat
  ∧ NoDup (expand_query q)
  ∧ Forall (fun s => s ≠ EmptyString) (expand_query q)
  ∧ expand_query q = take 4 (first_seen (expand_candidates q))
  ∧ head (expand_query q) = Some q.
Proof.
  intros Hq. unfold expand_query. rewrite dict_fromkeys_first_seen.
  destruct (expand_candidates_shape q) as (rest & Hc & Hrest).
  assert (Hall : Forall (fun s => s ≠ EmptyString) (expand_candidates q)).
  { rewrite Hc. by constructor. }
  repeat split.
  - rewrite Hc. simpl. lia.
  - apply length_take_le.
  - eapply sublist_NoDup; [apply first_seen_NoDup|apply sublist_take].
  - apply Forall_take. rewrite Forall_forall in Hall |- *.
    intros s Hs. by apply Hall, first_seen_subseteq.
  - by rewrite Hc.
Qed.

Lemma expand_query_shape_witness :
  "dean" ≠ EmptyString
  ∧ (1 ≤ length (expand_query "dean") ≤ 4)%nat
  ∧ NoDup (expand_query "dean")
  ∧ Forall (fun s => s ≠ EmptyString) (expand_query "dean")
  ∧ expand_query "dean" = take 4 (first_seen (expand_candidates "dean"))
  ∧ head (expand_query "dean") = Some "dean".
Proof. split; [discriminate | apply expand_query_shape; discriminate]. Defined.

(** C4 as stated fails: the first element of the expansion of an untrimmed
    query is the untrimmed query, not its trimmed form. *)
Lemma expand_query_head_untrimmed :
  " dean" ≠ EmptyString
  ∧ head (expand_query " dean") = Some " dean"
  ∧ head (expand_query " dean") ≠ Some (strip " dean").
Proof. vm_compute. repeat split; discriminate. Qed.

(** C3 (as amended). The expansion of the chairperson question is the
    question, its [faculty list] and [staff members] variants and
    [mathematics department faculty]; [mathematics chairperson head] is
    the fifth candidate, appended by the department detection and cut
    by the limit of 4. *)
Theorem expand_query_chairperson :
  expand_query chair_query =
    [chair_query; "faculty list " +:+ chair_query;
     "staff members " +:+ chair_query; "mathematics department faculty"]
  ∧ expand_candidates chair_query =
    [chair_query; "faculty list " +:+ chair_query;
     "staff members " +:+ chair_query; "mathematics department faculty";
     "mathematics chairperson head"].
Proof. split; vm_compute; reflexivity. Qed.

(** C3 as stated fails: the returned list does not contain all three
    entries, [mathematics chairperson head] is missing. *)
Lemma expand_query_chairperson_missing :
  ¬ (In ("faculty list " +:+ chair_query) (expand_query chair_query)
     ∧ In "mathematics department faculty" (expand_query chair_query)
     ∧ In "mathematics chairperson head" (expand_query chair_query)).
Proof.
  intros (_ & _ & H). vm_compute in H.
  repeat (destruct H as [H|H]; [discriminate H|]). exact H.
Qed.

(** ** Domain guardrail *)

(** C6. The guardrail, a function from the query to a boolean, accepts
    [hi] on the greeting path (the trimmed lowercased query starts with a
    greeting and has at most 3 tokens), rejects the question about the
    capital of France (no greeting prefix, no domain keyword) and accepts
    the admission question, which contains a domain keyword. *)
Theorem guardrail_examples :
  is_uet_related "hi" = true
  ∧ existsb (fun g => startswith (strip (lower "hi")) g) greetings = true
  ∧ len (split (lower "hi")) <= 3
  ∧ is_uet_related "What's the capital of France?" = false
  ∧ existsb (fun g => startswith (strip (lower "What's the capital of France?")) g)
      greetings = false
  ∧ any_in uet_keywords (lower "What's the capital of France?") = false
  ∧ is_uet_related "admission requirements for civil engineering" = true
  ∧ any_in uet_keywords (lower "admission requirements for civil engineering")
    = true.
Proof. vm_compute. repeat split; congruence. Qed.

(** C9. The greeting test is a character-prefix test: a query of at most
    3 whitespace-separated tokens whose trimmed lowercased text starts
    with a greeting string is accepted, whatever follows the greeting and
    whether or not a domain keyword occurs. *)
Theorem greeting_prefix_accepted (query g : string) :
  In g greetings →
  startswith (strip (lower query)) g = true →
  (length (split (lower query)) ≤ 3)%nat →
  is_uet_related query = true.
Proof.
  intros Hg Hpre Hlen. unfold is_uet_related.
  assert (existsb (fun g => startswith (strip (lower query)) g) greetings = true)
    as -> by (apply existsb_exists; eauto).
  assert ((len (split (lower query)) <=? 3) = true) as ->; [|done].
  apply Z.leb_le. unfold len. lia.
Qed.

(** [hiking is fun] has 3 tokens, starts with [hi] only as part of its
    first word and contains no domain keyword; it is accepted. *)
Lemma greeting_prefix_accepted_witness :
  In "hi" greetings
  ∧ startswith (strip (lower "hiking is fun")) "hi" = true
  ∧ (length (split (lower "hiking is fun")) ≤ 3)%nat
  ∧ split (lower "hiking is fun") = ["hiking"; "is"; "fun"]
  ∧ any_in uet_keywords (lower "hiking is fun") = false
  ∧ is_uet_related "hiking is fun" = true.
Proof.
  assert (H1 : In "hi" greetings) by (left; reflexivity).
  assert (H2 : startswith (strip (lower "hiking is fun")) "hi" = true)
    by reflexivity.
  assert (H3 : (length (split (lower "hiking is fun")) ≤ 3)%nat)
    by (vm_compute; lia).
  exact (conj H1 (conj H2 (conj H3 (conj eq_refl (conj eq_refl
           (greeting_prefix_accepted "hiking is fun" "hi" H1 H2 H3)))))).
Defined.

(** ** The relevance score *)

Lemma well_tagged_lower doc :
  well_tagged doc →
  meta_lower (meta_get (metadata doc) "departments" (MStr EmptyString))
  = Ok (lower (dept_tag doc)).
Proof.
  unfold well_tagged, meta_get, dept_tag.
  by destruct (metadata doc !! "departments") as [[s|n]|].
Qed.

Lemma fold_left_cond_add {A} (P : A → Prop) `{!∀ x, Decision (P x)}
    (f : A → bool) (g : A → Z) (l : list A) :
  Forall (fun x => f x = true ↔ P x) l →
  ∀ s, fold_left (fun s x => if f x then s + g x else s) l s
       = s + sumZ (map g (filter P l)).
Proof.
  induction 1 as [|x l Hf _ IH]; intros s; simpl; [lia|].
  rewrite IH, filter_cons. destruct (f x) eqn:Hx.
  - rewrite decide_True by (by apply Hf). simpl. lia.
  - rewrite decide_False; [done|]. rewrite <- Hf. congruence.
Qed.

Lemma windows_seq L ws :
  (1 ≤ L)%nat →
  map (fun i => take L (drop i ws)) (seq 0 (S (length ws) - L)) = windows L ws.
Proof.
  intros HL. induction ws as [|x ws IH]; simpl windows.
  - replace (S (length (@nil string)) - L)%nat with 0%nat by (simpl; lia). done.
  - destruct (Nat.leb_spec L (S (length ws))) as [Hle|Hgt].
    + replace (S (length (x :: ws)) - L)%nat
        with (S (S (length ws) - L)) by (simpl in *; lia).
      cbn [seq map]. rewrite <- seq_shift, map_map. cbn [drop app].
      by rewrite IH.
    + replace (S (length (x :: ws)) - L)%nat with 0%nat by (simpl in *; lia).
      rewrite <- IH.
      replace (S (length ws) - L)%nat with 0%nat by (simpl in *; lia). done.
Qed.

Lemma slices_windows (L : Z) ws :
  1 <= L →
  map (fun i => slice ws i (i + L)) (range (len ws - L + 1))
  = windows (Z.to_nat L) ws.
Proof.
  intros HL. rewrite <- windows_seq by lia.
  unfold range, len. rewrite map_map.
  replace (Z.to_nat (Z.of_nat (length ws) - L + 1))
    with (S (length ws) - Z.to_nat L)%nat by lia.
  apply map_ext. intros i. unfold slice.
  by replace (Z.to_nat (Z.of_nat i + L - Z.of_nat i)) with (Z.to_nat L)
    by lia; rewrite Nat2Z.id.
Qed.

Lemma filter_map_comm {A B} (h : A → B) (P : B → Prop)
    `{!∀ y, Decision (P y)} (l : list A) :
  filter P (map h l) = map h (filter (fun x => P (h x)) l).
Proof.
  induction l as [|x l IH]; simpl; [done|].
  rewrite !filter_cons, IH. by case_decide.
Qed.

(** The loop over the start positions of one phrase length. *)
Lemma phrase_positions_spec (L : Z) ws cl s :
  1 <= L →
  fold_left
    (fun score i =>
       let phrase := join " " (slice ws i (i + L)) in
       if contains phrase cl then score + L * 10 else score)
    (range (len ws - L + 1)) s
  = s + sumZ (map (fun _ => L * 10)
                (filter (fun w => contains (join " " w) cl = true)
                   (windows (Z.to_nat L) ws))).
Proof.
  intros HL. cbv zeta.
  rewrite (fold_left_cond_add
             (fun i => contains (join " " (slice ws i (i + L))) cl = true)
             (fun i => contains (join " " (slice ws i (i + L))) cl)
             (fun _ => L * 10)) by (by apply Forall_forall).
  rewrite <- slices_windows by done.
  by rewrite filter_map_comm, map_map.
Qed.

Lemma sumZ_app l1 l2 : sumZ (l1 ++ l2) = sumZ l1 + sumZ l2.
Proof. induction l1 as [|x l1 IH]; simpl; lia. Qed.

Lemma phrase_loop_spec ql cl s :
  phrase_loop ql cl s = s + phrase_overlap ql cl.
Proof.
  unfold phrase_loop, phrase_overlap. cbn [fold_left flat_map].
  rewrite !phrase_positions_spec by lia.
  rewrite !sumZ_app. change (sumZ []) with 0. lia.
Qed.

(** C1. The relevance score of a chunk (tagged as the ingestion tags it) for
    a query is the sum of four terms computed on the lowercased query, the
    lowercased chunk text and the lowercased department tag: the phrase
    overlap over the windows of 4, 3 and 2 query words ([L * 10] per
    matching window), twice the number of common whitespace tokens, the
    role-term boost (15 per role indicator in the chunk text, for a query
    with a role keyword) and the department boost (10 per fragment that
    occurs in the query and in the chunk text or the tag). *)
Theorem relevance_formula (query : string) (doc : Doc) :
  well_tagged doc →
  relevance query doc
  = Ok (phrase_overlap (lower query) (lower (page_content doc))
        + keyword_overlap (lower query) (lower (page_content doc))
        + role_boost (lower query) (lower (page_content doc))
        + dept_boost (lower query) (lower (page_content doc))
            (lower (dept_tag doc))).
Proof.
  intros Htag. unfold relevance, score_doc.
  rewrite well_tagged_lower by done. cbn [res_bind]. f_equal.
  set (ql := lower query). set (cl := lower (page_content doc)).
  set (dl := lower (dept_tag doc)).
  rewrite (fold_left_cond_add
             (fun frag => contains frag ql = true
                          ∧ (contains frag cl = true ∨ contains frag dl = true))
             _ (fun _ => 10)).
  2:{ change (" " +:+ dl) with (String " " dl).
      repeat (apply Forall_cons; split;
              [rewrite contains_app_sep by reflexivity;
               by rewrite andb_true_iff, orb_true_iff|]).
      apply Forall_nil_2. }
  fold (dept_boost ql cl dl).
  rewrite phrase_loop_spec. fold (keyword_overlap ql cl).
  unfold role_boost, keyword_overlap.
  destruct (any_in role_query_terms ql).
  - rewrite (fold_left_cond_add (fun term => contains term cl = true)
               _ (fun _ => 15)) by (by apply Forall_forall).
    lia.
  - lia.
Qed.

Lemma relevance_formula_witness :
  well_tagged chunk_c
  ∧ relevance "mathematics chairperson" chunk_c = Ok 42
  ∧ relevance "mathematics chairperson" chunk_c
    = Ok (phrase_overlap (lower "mathematics chairperson")
            (lower (page_content chunk_c))
          + keyword_overlap (lower "mathematics chairperson")
              (lower (page_content chunk_c))
          + role_boost (lower "mathematics chairperson")
              (lower (page_content chunk_c))
          + dept_boost (lower "mathematics chairperson")
              (lower (page_content chunk_c)) (lower (dept_tag chunk_c))).
Proof.
  assert (H : well_tagged chunk_c) by exact I.
  split; [exact H|]. split; [by vm_compute|].
  exact (relevance_formula "mathematics chairperson" chunk_c H).
Defined.

(** ** Re-ranking *)

Lemma insert_desc_perm x l : insert_desc x l ≡ₚ x :: l.
Proof.
  induction l as [|y l IH]; simpl; [done|].
  destruct (fst x <? fst y); [|done].
  rewrite IH. apply Permutation_swap.
Qed.

Lemma sort_desc_perm l : sort_desc l ≡ₚ l.
Proof.
  induction l as [|x l IH]; simpl; [done|].
  by rewrite insert_desc_perm, IH.
Qed.

Lemma insert_desc_sorted x l :
  StronglySorted score_ge l → StronglySorted score_ge (insert_desc x l).
Proof.
  induction 1 as [|y l Hs IH Hy]; simpl.
  - repeat constructor.
  - destruct (Z.ltb_spec (fst x) (fst y)) as [Hlt|Hge].
    + constructor; [done|].
      rewrite insert_desc_perm. constructor; [|done].
      unfold score_ge. lia.
    + constructor; [by constructor|].
      constructor; [done|].
      eapply Forall_impl; [exact Hy|]. unfold score_ge. intros z. lia.
Qed.

Lemma sort_desc_sorted l : StronglySorted score_ge (sort_desc l).
Proof.
  induction l as [|x l IH]; simpl; [constructor|].
  by apply insert_desc_sorted.
Qed.

(** An inserted entry only passes entries of strictly larger score, so
    the entries of any one score keep their order. *)
Lemma insert_desc_stable s x l :
  filter (fun sd : Z * Doc => fst sd = s) (insert_desc x l)
  = filter (fun sd : Z * Doc => fst sd = s) (x :: l).
Proof.
  induction l as [|y l IH]; simpl; [done|].
  destruct (Z.ltb_spec (fst x) (fst y)) as [Hlt|Hge]; [|done].
  rewrite (filter_cons _ y), IH, !(filter_cons _ x), (filter_cons _ y).
  repeat case_decide; try done. lia.
Qed.

Lemma sort_desc_stable s l :
  filter (fun sd : Z * Doc => fst sd = s) (sort_desc l)
  = filter (fun sd : Z * Doc => fst sd = s) l.
Proof.
  induction l as [|x l IH]; simpl; [done|].
  by rewrite insert_desc_stable, !(filter_cons _ x), IH.
Qed.

Lemma score_doc_ok ql kw doc :
  well_tagged doc → ∃ s, score_doc ql kw doc = Ok s.
Proof.
  intros H. unfold score_doc. rewrite well_tagged_lower by done.
  simpl. eauto.
Qed.

Lemma score_all_ok ql kw docs :
  Forall well_tagged docs →
  ∃ scored, score_all ql kw docs = Ok scored
            ∧ map snd scored = docs
            ∧ Forall (fun sd => score_doc ql kw (snd sd) = Ok (fst sd)) scored.
Proof.
  induction 1 as [|d docs Hd _ (scored & Hs & Hm & Hf)]; simpl.
  - exists []. by repeat split.
  - destruct (score_doc_ok ql kw d Hd) as (s & Hsd). rewrite Hsd, Hs. simpl.
    exists ((s, d) :: scored). repeat split; [simpl; by rewrite Hm|].
    by constructor.
Qed.

(** C2. For every query and every collection of chunks (tagged as the
    ingestion tags them), the re-ranker pairs each chunk with its relevance
    score, orders the pairs by non-increasing score with the pairs of any
    one score left in their original relative order, and returns the chunks
    of the first 6 pairs: at most 6 chunks, and all of them when there are
    no more than 6. *)
Theorem rerank_sorted_stable_top6 (query : string) (docs : list Doc) :
  Forall well_tagged docs →
  ∃ scored sorted : list (Z * Doc),
    map snd scored = docs
    ∧ Forall (fun sd => relevance query (snd sd) = Ok (fst sd)) scored
    ∧ sorted ≡ₚ scored
    ∧ StronglySorted score_ge sorted
    ∧ (∀ s, filter (fun sd : Z * Doc => fst sd = s) sorted
            = filter (fun sd : Z * Doc => fst sd = s) scored)
    ∧ rerank query docs = Ok (map snd (take 6 sorted))
    ∧ length (map snd (take 6 sorted)) = (6 `min` length docs)%nat
    ∧ ((length docs ≤ 6)%nat → take 6 sorted = sorted).
Proof.
  intros Hdocs.
  destruct (score_all_ok (lower query) (list_to_set (split (lower query)))
              docs Hdocs) as (scored & Hs & Hm & Hf).
  assert (Hlen : length (sort_desc scored) = length docs).
  { rewrite sort_desc_perm. by rewrite <- Hm, length_map. }
  exists scored, (sort_desc scored). repeat split.
  - done.
  - done.
  - apply sort_desc_perm.
  - apply sort_desc_sorted.
  - intros s. apply sort_desc_stable.
  - unfold rerank. by rewrite Hs.
  - rewrite length_map, length_take. lia.
  - intros Hle. apply take_ge. lia.
Qed.

Lemma rerank_sorted_stable_top6_witness :
  Forall well_tagged [chunk_a; chunk_c; chunk_b]
  ∧ rerank "mathematics chairperson" [chunk_a; chunk_c; chunk_b]
    = Ok [chunk_c; chunk_a; chunk_b]
  ∧ ∃ scored sorted : list (Z * Doc),
    map snd scored = [chunk_a; chunk_c; chunk_b]
    ∧ Forall (fun sd => relevance "mathematics chairperson" (snd sd)
                        = Ok (fst sd)) scored
    ∧ sorted ≡ₚ scored
    ∧ StronglySorted score_ge sorted
    ∧ (∀ s, filter (fun sd : Z * Doc => fst sd = s) sorted
            = filter (fun sd : Z * Doc => fst sd = s) scored)
    ∧ rerank "mathematics chairperson" [chunk_a; chunk_c; chunk_b]
      = Ok (map snd (take 6 sorted))
    ∧ length (map snd (take 6 sorted))
      = (6 `min` length [chunk_a; chunk_c; chunk_b])%nat
    ∧ ((length [chunk_a; chunk_c; chunk_b] ≤ 6)%nat → take 6 sorted = sorted).
Proof.
  assert (H : Forall well_tagged [chunk_a; chunk_c; chunk_b])
    by (repeat constructor).
  split; [exact H|]. split; [by vm_compute|].
  exact (rerank_sorted_stable_top6 "mathematics chairperson"
           [chunk_a; chunk_c; chunk_b] H).
Defined.

(** ** Retriever deduplication *)

Section Dedup.
Variable hash : string -> Z.
Local Abbreviation key := (chunk_key hash).

Lemma dedup_step_eq out seen d :
  dedup_step hash (out, seen) d
  = if decide (key d ∈ seen) then (out, seen)
    else (out ++ [d], {[key d]} ∪ seen).
Proof.
  unfold dedup_step. fold (key d).
  destruct (decide (key d ∉ seen)) as [Hn|Hn].
  - by rewrite decide_False.
  - apply dec_stable in Hn. by rewrite decide_True.
Qed.

Lemma dedup_into_first_by_key docs : ∀ out seen,
  dedup_into hash docs (out, seen)
  = (out ++ first_by_key key seen docs,
     list_to_set (map key docs) ∪ seen).
Proof.
  unfold dedup_into.
  induction docs as [|d ds IH]; intros out seen; cbn [fold_left first_by_key map].
  - rewrite app_nil_r. f_equal. set_solver.
  - rewrite dedup_step_eq. destruct (decide (key d ∈ seen)) as [Hn|Hn].
    + rewrite IH. f_equal. set_solver.
    + rewrite IH. rewrite <- (assoc_L (++)). simpl. f_equal. set_solver.
Qed.

Lemma unique_chunks_first_by_key docs :
  unique_chunks hash docs = first_by_key key ∅ docs.
Proof. unfold unique_chunks. by rewrite dedup_into_first_by_key. Qed.

Lemma first_by_key_fresh docs : ∀ seen d,
  d ∈ first_by_key key seen docs → key d ∉ seen.
Proof.
  induction docs as [|x ds IH]; intros seen d; simpl.
  - by intros ?%not_elem_of_nil.
  - destruct (decide (key x ∈ seen)) as [Hx|Hx]; [by apply IH|].
    intros [->|Hd]%elem_of_cons; [done|].
    apply IH in Hd. set_solver.
Qed.

(** One entry per key: the first chunk of the stream that carries it. *)
Lemma first_by_key_filter k docs : ∀ seen,
  k ∉ seen →
  filter (fun d => key d = k) (first_by_key key seen docs)
  = option_list (find (fun d => key d =? k) docs).
Proof.
  induction docs as [|x ds IH]; intros seen Hk; simpl; [done|].
  destruct (decide (key x ∈ seen)) as [Hx|Hx].
  - assert (key x ≠ k) as Hne by congruence.
    apply Z.eqb_neq in Hne as ->. by apply IH.
  - destruct (Z.eqb_spec (key x) k) as [Heq|Hne].
    + rewrite filter_cons_True by done. simpl. f_equal.
      apply filter_none, Forall_forall.
      intros d Hd%first_by_key_fresh. set_solver.
    + rewrite filter_cons_False by done. apply IH. set_solver.
Qed.

(** A chunk whose key was seen, or is carried by an earlier chunk, leaves
    no trace in the collection. *)
Lemma first_by_key_drop d post : ∀ pre seen,
  key d ∈ seen ∨ (∃ d1, d1 ∈ pre ∧ key d1 = key d) →
  first_by_key key seen (pre ++ d :: post)
  = first_by_key key seen (pre ++ post).
Proof.
  induction pre as [|x pre IH]; intros seen H; simpl.
  - destruct H as [H|(d1 & []%not_elem_of_nil & _)].
    by rewrite decide_True.
  - destruct (decide (key x ∈ seen)) as [Hx|Hx].
    + apply IH. destruct H as [H|(d1 & [->|H1]%elem_of_cons & Hk)];
        [by left|left; congruence|right; eauto].
    + f_equal. apply IH.
      destruct H as [H|(d1 & [->|H1]%elem_of_cons & Hk)];
        [left|left|right; eauto]; set_solver.
Qed.

Lemma find_after_misses {A} (f : A → bool) pre x l :
  Forall (fun y => f y = false) pre → f x = true →
  find f (pre ++ x :: l) = Some x.
Proof.
  induction 1 as [|y pre Hy _ IH]; intros Hx; simpl.
  - by rewrite Hx.
  - rewrite Hy. by apply IH.
Qed.

(** On a stream: a chunk that follows one with the same first 100
    characters has its key and leaves no trace; the collection holds one
    entry with that key, the first chunk of the stream that carries it. *)
Lemma unique_chunks_merge (pre mid post : list Doc) (d1 d2 : Doc) :
  str_take 100 (page_content d1) = str_take 100 (page_content d2) →
  key d2 = key d1
  ∧ unique_chunks hash (pre ++ d1 :: mid ++ d2 :: post)
    = unique_chunks hash (pre ++ d1 :: mid ++ post)
  ∧ ∃ first,
      find (fun d => key d =? key d1) (pre ++ d1 :: mid ++ d2 :: post)
      = Some first
      ∧ filter (fun d => key d = key d1)
          (unique_chunks hash (pre ++ d1 :: mid ++ d2 :: post)) = [first]
      ∧ (Forall (fun d => key d ≠ key d1) pre → first = d1).
Proof.
  intros Hpre.
  assert (Hk : key d2 = key d1) by (unfold chunk_key; by rewrite Hpre).
  split; [done|]. split.
  - rewrite !unique_chunks_first_by_key.
    change (pre ++ d1 :: mid ++ d2 :: post)
      with (pre ++ (d1 :: mid) ++ d2 :: post).
    change (pre ++ d1 :: mid ++ post) with (pre ++ (d1 :: mid) ++ post).
    rewrite !(assoc_L (++)). apply first_by_key_drop.
    right. exists d1. split; [|done]. set_solver.
  - destruct (find (fun d => key d =? key d1) (pre ++ d1 :: mid ++ d2 :: post))
      as [first|] eqn:Hfind.
    + exists first. split; [done|]. split.
      * rewrite unique_chunks_first_by_key, first_by_key_filter by set_solver.
        by rewrite Hfind.
      * intros Hmiss. rewrite find_after_misses in Hfind; [congruence| |].
        -- eapply Forall_impl; [exact Hmiss|]. intros d Hd. by apply Z.eqb_neq.
        -- apply Z.eqb_refl.
    + exfalso. eapply find_none with (x := d1) in Hfind.
      * by rewrite Z.eqb_refl in Hfind.
      * apply in_or_app. right. by left.
Qed.

End Dedup.

Section RetrieverDedup.
Context {W : Type} {E : External W}.

(** The loop of the retriever reads the chunks the index returned, query
    after query, as one stream. *)
Lemma retrieve_loop_collects queries : ∀ acc st acc' st',
  retrieve_loop queries acc st = (Ok acc', st') →
  acc' = dedup_into py_hash (retrieved_stream queries (world st)) acc.
Proof.
  induction queries as [|q queries IH]; intros acc st acc' st'; simpl.
  - by intros [= <- _].
  - unfold bind, invoke_retriever.
    destruct (retriever_invoke q (world st)) as [[docs|e] w]; [|done].
    intros ->%IH. cbn [world]. unfold dedup_into. by rewrite fold_left_app.
Qed.

Lemma retrieve_loop_unique queries st all_docs seen st' :
  retrieve_loop queries ([], ∅) st = (Ok (all_docs, seen), st') →
  all_docs = unique_chunks py_hash (retrieved_stream queries (world st)).
Proof.
  intros H%retrieve_loop_collects. unfold unique_chunks. by rewrite <- H.
Qed.

(** C5. In the unique collection the retriever builds over all expansion
    queries, two chunks returned by the index with the same first 100
    characters are merged, whatever follows in their texts: they have the
    same deduplication key, the later one leaves no trace, and the
    collection holds exactly one entry with that key, the first chunk the
    index returned that carries it, hence the earlier of the two when no
    chunk returned before it has the key. *)
Theorem dedup_merges_equal_prefix (queries : list string) (st st' : St W)
    (all_docs : list Doc) (seen : gset Z) (pre mid post : list Doc)
    (d1 d2 : Doc) :
  retrieve_loop queries ([], ∅) st = (Ok (all_docs, seen), st') →
  retrieved_stream queries (world st) = pre ++ d1 :: mid ++ d2 :: post →
  str_take 100 (page_content d1) = str_take 100 (page_content d2) →
  chunk_key py_hash d2 = chunk_key py_hash d1
  ∧ all_docs = unique_chunks py_hash (pre ++ d1 :: mid ++ post)
  ∧ ∃ first,
      find (fun d => chunk_key py_hash d =? chunk_key py_hash d1)
        (retrieved_stream queries (world st)) = Some first
      ∧ filter (fun d => chunk_key py_hash d = chunk_key py_hash d1) all_docs
        = [first]
      ∧ (Forall (fun d => chunk_key py_hash d ≠ chunk_key py_hash d1) pre →
         first = d1).
Proof.
  intros Hloop Hstream Hprefix.
  apply retrieve_loop_unique in Hloop. rewrite Hstream in Hloop |- *.
  destruct (unique_chunks_merge py_hash pre mid post d1 d2 Hprefix)
    as (Hk & Hdrop & first & Hfind & Hfilter & Hfirst).
  split; [done|]. split; [by rewrite Hloop, Hdrop|].
  exists first. by rewrite Hloop.
Qed.

End RetrieverDedup.

(** The index returns [chunk_a], [chunk_c], [chunk_b] for each of the three
    expansion queries; [chunk_a] and [chunk_b] differ in their tails and
    metadata only, and the collection keeps [chunk_a] and [chunk_c]. *)
Lemma dedup_merges_equal_prefix_witness :
  retrieve_loop (E := three_chunk_index) (expand_query "who is the dean")
    ([], ∅) st0
  = (Ok ([chunk_a; chunk_c],
         {[ chunk_key stub_hash chunk_c ]} ∪ ({[ chunk_key stub_hash chunk_a ]} ∪ ∅)),
     mkSt tt (map Retrieved (expand_query "who is the dean")))
  ∧ retrieved_stream (E := three_chunk_index) (expand_query "who is the dean")
      (world st0)
    = [] ++ chunk_a :: [chunk_c]
        ++ chunk_b :: [chunk_a; chunk_c; chunk_b; chunk_a; chunk_c; chunk_b]
  ∧ str_take 100 (page_content chunk_a) = str_take 100 (page_content chunk_b)
  ∧ chunk_a ≠ chunk_b
  ∧ chunk_key stub_hash chunk_b = chunk_key stub_hash chunk_a
  ∧ [chunk_a; chunk_c]
    = unique_chunks stub_hash
        ([] ++ chunk_a :: [chunk_c]
            ++ [chunk_a; chunk_c; chunk_b; chunk_a; chunk_c; chunk_b])
  ∧ ∃ first,
      find (fun d => chunk_key stub_hash d =? chunk_key stub_hash chunk_a)
        (retrieved_stream (E := three_chunk_index)
           (expand_query "who is the dean") (world st0)) = Some first
      ∧ filter (fun d => chunk_key stub_hash d = chunk_key stub_hash chunk_a)
          [chunk_a; chunk_c] = [first]
      ∧ (Forall (fun d => chunk_key stub_hash d ≠ chunk_key stub_hash chunk_a) []
         → first = chunk_a).
Proof.
  assert (H1 : retrieve_loop (E := three_chunk_index)
                 (expand_query "who is the dean") ([], ∅) st0
               = (Ok ([chunk_a; chunk_c],
                      {[ chunk_key stub_hash chunk_c ]}
                        ∪ ({[ chunk_key stub_hash chunk_a ]} ∪ ∅)),
                  mkSt tt (map Retrieved (expand_query "who is the dean"))))
    by (by vm_compute).
  assert (H2 : retrieved_stream (E := three_chunk_index)
                 (expand_query "who is the dean") (world st0)
               = [] ++ chunk_a :: [chunk_c]
                   ++ chunk_b
                      :: [chunk_a; chunk_c; chunk_b; chunk_a; chunk_c; chunk_b])
    by reflexivity.
  assert (H3 : str_take 100 (page_content chunk_a)
               = str_take 100 (page_content chunk_b)) by reflexivity.
  split; [exact H1|]. split; [exact H2|]. split; [exact H3|].
  split; [discriminate|].
  exact (dedup_merges_equal_prefix (E := three_chunk_index)
           (expand_query "who is the dean") st0 _ _ _ [] [chunk_c] _
           chunk_a chunk_b H1 H2 H3).
Defined.


(** ** Search results *)





Section SearchProps.
Context {W : Type} {E : External W}.


End SearchProps.

(** ** Orchestrator and service boundary *)

Section OrchestratorProps.
Context {W : Type} {E : External W}.

Lemma retrieve_loop_trace queries : ∀ acc st r st',
  retrieve_loop queries acc st = (r, st') →
  ∃ evs, trace st' = trace st ++ evs ∧ Forall is_retrieval evs.
Proof.
  induction queries as [|q queries IH]; intros acc st r st'; simpl.
  - intros [= _ <-]. exists []. by rewrite app_nil_r.
  - unfold bind, invoke_retriever.
    destruct (retriever_invoke q (world st)) as [[docs|e] w] eqn:Hq.
    + intros (evs & Ht & Hf)%IH. simpl in Ht.
      exists (Retrieved q :: evs). rewrite Ht, <- (assoc_L (++)).
      split; [done|]. by constructor.
    + intros [= _ <-]. simpl. exists [Retrieved q]. split; [done|].
      by repeat constructor.
Qed.

(** A search calls the retriever only. *)
Lemma search_prospectus_trace query st r st' :
  search_prospectus query st = (r, st') →
  ∃ evs, trace st' = trace st ++ evs ∧ Forall is_retrieval evs.
Proof.
  unfold search_prospectus, try_catch, bind.
  destruct (retrieve_loop (expand_query query) ([], ∅) st)
    as [[[all_docs seen]|e] st1] eqn:Hl;
    apply retrieve_loop_trace in Hl.
  - cbn [fst]. destruct all_docs as [|d all_docs].
    + by intros [= _ <-].
    + unfold lift. destruct (rerank query (d :: all_docs)); by intros [= _ <-].
  - by intros [= _ <-].
Qed.

(** The unique collection of a search is the deduplication of the chunks
    of all expansion queries, taken as one stream. *)
Lemma retrieve_loop_stream queries : ∀ acc st acc' st',
  retrieve_loop queries acc st = (Ok acc', st') →
  ∃ stream, acc' = dedup_into py_hash stream acc.
Proof.
  induction queries as [|q queries IH]; intros acc st acc' st'; simpl.
  - intros [= <- _]. by exists [].
  - unfold bind, invoke_retriever.
    destruct (retriever_invoke q (world st)) as [[docs|e] w]; [|done].
    intros (stream & ->)%IH. exists (docs ++ stream).
    unfold dedup_into. by rewrite fold_left_app.
Qed.

(** A query that contains an indicator phrase literally triggers the
    direct search, since the indicators are lowercase. *)
Lemma literal_indicator_triggers query ind :
  In ind factual_indicators → contains ind query = true →
  should_search_directly query = true.
Proof.
  intros Hin Hc. apply existsb_exists. exists ind. split; [done|].
  assert (lower ind = ind) as <-; [|by apply contains_lower].
  unfold factual_indicators in Hin. simpl in Hin.
  repeat (destruct Hin as [<-|Hin]; [reflexivity|]). done.
Qed.

(** C7. When the lowercased query contains a factual indicator and the
    search comes back with [found] false, the orchestrator returns the fixed
    message and leaves the state as the search left it: the only calls made
    are retrievals, the language model is not invoked. *)
Theorem direct_search_not_found (user_query : string) (st st' : St W)
    (res : SearchResult) :
  should_search_directly user_query = true →
  search_prospectus user_query st = (Ok res, st') →
  found res = false →
  run_enhanced_agent user_query st
  = (Ok "I couldn't find specific information about that in the UET prospectus. Could you rephrase your question or ask about a specific department?",
     st')
  ∧ ∃ evs, trace st' = trace st ++ evs ∧ Forall is_retrieval evs.
Proof.
  intros Hdirect Hsearch Hfound. split.
  - unfold run_enhanced_agent, bind. by rewrite Hdirect, Hsearch, Hfound.
  - by eapply search_prospectus_trace.
Qed.

(** A well-formed message always gets a success response: an exception of
    the agent is turned into the apology by [process_query]. *)
Lemma process_query_total user_query st :
  ∃ text st', process_query user_query st = (Ok text, st')
    ∧ (is_uet_related (strip user_query) = true →
       ∀ e st1, run_enhanced_agent (strip user_query) st = (Raise e, st1) →
                text = apology_message ∧ st' = st1).
Proof.
  unfold process_query.
  destruct (is_empty (strip user_query)) eqn:He.
  - exists empty_prompt_message, st. split; [done|].
    intros Hrel. destruct (strip user_query); [|done].
    by vm_compute in Hrel.
  - destruct (is_uet_related (strip user_query)) eqn:Hrel; simpl.
    + unfold try_catch.
      destruct (run_enhanced_agent (strip user_query) st) as [[a|e] st1].
      * exists a, st1. split; [done|]. intros _ e' st2 [=].
      * exists apology_message, st1. split; [done|].
        by intros _ e' st2 [= _ <-].
    + exists out_of_domain_message, st. by split.
Qed.

(** No exception leaves [search_prospectus]; one raised by the retrieval
    loop becomes an unsuccessful result that carries its text. *)
Lemma search_prospectus_ok query st :
  ∃ res st', search_prospectus query st = (Ok res, st')
    ∧ (∀ e st1,
         retrieve_loop (expand_query query) ([], ∅) st = (Raise e, st1) →
         found res = false
         ∧ context res = "Search error: " +:+ exn_msg e
         ∧ st' = st1).
Proof.
  unfold search_prospectus, try_catch, bind.
  destruct (retrieve_loop (expand_query query) ([], ∅) st)
    as [[[all_docs seen]|e] st1].
  - cbn [fst]. destruct all_docs as [|d all_docs].
    + by exists not_found_result, st1.
    + unfold lift. destruct (rerank query (d :: all_docs)) as [top_docs|e].
      * by exists (build_result top_docs), st1.
      * by exists (search_error_result e), st1.
  - exists (search_error_result e), st1. split; [done|].
    by intros e' st2 [= <- <-].
Qed.

Lemma invoke_llm_raise prompt st e st' :
  invoke_llm prompt st = (Raise e, st') →
  llm_invoke prompt (world st) = (Raise e, world st').
Proof.
  unfold invoke_llm. destruct (llm_invoke prompt (world st)) as [r w].
  by intros [= -> <-].
Qed.

(** An exception that leaves the orchestrator was raised by a call to the
    language model. *)
Lemma run_enhanced_agent_raise_llm user_query st e st' :
  run_enhanced_agent user_query st = (Raise e, st') →
  ∃ prompt w w', llm_invoke prompt w = (Raise e, w').
Proof.
  unfold run_enhanced_agent, bind, ret.
  destruct (should_search_directly user_query).
  - destruct (search_prospectus_ok user_query st) as (res & st1 & -> & _).
    destruct (negb (found res)); [done|].
    destruct (invoke_llm _ st1) as [[a|e'] st2] eqn:Hg; [done|].
    intros [= <- _]. apply invoke_llm_raise in Hg. eauto.
  - destruct (invoke_llm (decision_prompt user_query) st)
      as [[response|e'] st1] eqn:Hg0.
    2:{ intros [= <- _]. apply invoke_llm_raise in Hg0. eauto. }
    destruct (re_search_action response) as [group1|].
    + destruct (search_prospectus_ok
                  (strip_by (Ascii.eqb squote)
                     (strip_by (Ascii.eqb dquote) (strip group1))) st1)
        as (res & st2 & -> & _).
      destruct (negb (found res)); [done|].
      destruct (invoke_llm _ st2) as [[a|e'] st3] eqn:Hg; [done|].
      intros [= <- _]. apply invoke_llm_raise in Hg. eauto.
    + destruct (any_in refusal_phrases (lower response)); [|done].
      destruct (search_prospectus_ok user_query st1) as (res & st2 & -> & _).
      destruct (found res); [|done].
      destruct (invoke_llm _ st2) as [[a|e'] st3] eqn:Hg; [done|].
      intros [= <- _]. apply invoke_llm_raise in Hg. eauto.
Qed.

(** C8 (as amended). A malformed message (empty after trimming, or of a
    length outside 1..500) is answered with the client error 422, before
    any call. Every well-formed message is answered with a success
    response, never a server error. An exception of the retriever does not
    leave [search_prospectus]: the search returns [found] false with the
    exception text in its context. An exception that leaves the
    orchestrator was raised by a call to the language model; it is caught
    by [process_query] and the response carries the fixed apology. *)
Theorem post_chat_responses (message : string) (st : St W) :
  (malformed message = true →
   ∃ detail, post_chat message st = (Ok (HttpError 422 detail), st))
  ∧ (malformed message = false →
     ∃ text st',
       post_chat message st
       = (Ok (Http200 {| response := text; status := "success" |}), st')
       ∧ (is_uet_related (strip message) = true →
          ∀ e st1, run_enhanced_agent (strip message) st = (Raise e, st1) →
                   text = apology_message ∧ st' = st1
                   ∧ ∃ prompt w w', llm_invoke prompt w = (Raise e, w')))
  ∧ (∀ query st2,
       ∃ res st3,
         search_prospectus query st2 = (Ok res, st3)
         ∧ (∀ e st4,
              retrieve_loop (expand_query query) ([], ∅) st2 = (Raise e, st4) →
              found res = false
              ∧ context res = "Search error: " +:+ exn_msg e
              ∧ st3 = st4)).
Proof.
  unfold malformed, post_chat, validate_chat_request. split; [|split].
  - intros Hm.
    destruct ((String.length message <? 1)%nat || (500 <? String.length message)%nat)
      eqn:Hlen; [by eexists|].
    apply orb_false_elim in Hlen as [Hl1 Hl2]. rewrite Hl1, Hl2 in Hm.
    destruct (is_empty (strip message)) eqn:He; [|done].
    rewrite orb_true_r. by eexists.
  - intros Hm.
    apply orb_false_elim in Hm as [[He Hl1]%orb_false_elim Hl2].
    rewrite Hl1, Hl2, He. simpl.
    assert (is_empty message = false) as ->.
    { destruct message; [by vm_compute in He|done]. }
    simpl. unfold chat_endpoint.
    destruct (process_query_total (strip message) st) as (text & st' & Hp & Hraise).
    rewrite Hp. exists text, st'. split; [done|].
    rewrite strip_idem in Hraise. intros Hrel e st1 Hrun.
    destruct (Hraise Hrel e st1 Hrun) as [-> ->].
    split; [done|]. split; [done|].
    by eapply run_enhanced_agent_raise_llm.
  - intros query st2. apply search_prospectus_ok.
Qed.

End OrchestratorProps.

Lemma direct_search_not_found_witness :
  should_search_directly "who is the dean" = true
  ∧ search_prospectus (E := empty_index_offline_llm) "who is the dean" st0
    = (Ok not_found_result,
       mkSt tt (map Retrieved (expand_query "who is the dean")))
  ∧ found not_found_result = false
  ∧ run_enhanced_agent (E := empty_index_offline_llm) "who is the dean" st0
    = (Ok "I couldn't find specific information about that in the UET prospectus. Could you rephrase your question or ask about a specific department?",
       mkSt tt (map Retrieved (expand_query "who is the dean")))
  ∧ ∃ evs, trace (mkSt tt (map Retrieved (expand_query "who is the dean")))
           = trace st0 ++ evs
           ∧ Forall is_retrieval evs.
Proof.
  assert (H1 : should_search_directly "who is the dean" = true) by reflexivity.
  assert (H2 : search_prospectus (E := empty_index_offline_llm)
                 "who is the dean" st0
               = (Ok not_found_result,
                  mkSt tt (map Retrieved (expand_query "who is the dean"))))
    by (vm_compute; reflexivity).
  assert (H3 : found not_found_result = false) by reflexivity.
  exact (conj H1 (conj H2 (conj H3
           (direct_search_not_found (E := empty_index_offline_llm)
              "who is the dean" st0 _ not_found_result H1 H2 H3)))).
Defined.

(** C8 as stated fails: with a language model that fails on every call,
    the well-formed message [hello] is answered with a success response
    that carries the apology, not with a server error. *)
Lemma post_chat_failure_is_success :
  malformed "hello" = false
  ∧ (∃ st1, run_enhanced_agent (E := empty_index_offline_llm) "hello" st0
            = (Raise offline_error, st1))
  ∧ (∃ st1, post_chat (E := empty_index_offline_llm) "hello" st0
            = (Ok (Http200 {| response := apology_message; status := "success" |}),
               st1))
  ∧ ∀ code detail,
      fst (post_chat (E := empty_index_offline_llm) "hello" st0)
      ≠ Ok (HttpError code detail).
Proof.
  split; [reflexivity|].
  split; [eexists; vm_compute; reflexivity|].
  split; [eexists; vm_compute; reflexivity|].
  intros code detail. vm_compute. discriminate.
Qed.

(** * Further properties *)

(** ** Ingestion metadata *)

Lemma fold_left_cond_snoc {A B} (f : A → bool) (g : A → B) (l : list A) :
  ∀ acc, fold_left (fun acc x => if f x then acc ++ [g x] else acc) l acc
         = acc ++ map g (filter (fun x => f x = true) l).
Proof.
  induction l as [|x l IH]; intros acc; simpl.
  - by rewrite app_nil_r.
  - rewrite IH, filter_cons. destruct (f x) eqn:Hx.
    + rewrite decide_True by done. by rewrite <- (assoc_L (++)).
    + rewrite decide_False; [done|]. congruence.
Qed.

Lemma any_in_false ws s w :
  any_in ws s = false → In w ws → contains w s = false.
Proof.
  intros Hf Hw. destruct (contains w s) eqn:Hc; [|done].
  assert (any_in ws s = true) by (apply existsb_exists; eauto). congruence.
Qed.

Lemma department_names_NoDup : NoDup department_names.
Proof. apply (bool_decide_unpack _). by vm_compute. Qed.

Lemma matched_departments_sublist text :
  matched_departments text `sublist_of` department_names.
Proof. apply (fmap_sublist fst), sublist_filter. Qed.

(** X1. The department tags of a text are the departments one of whose
    keywords occurs in the lowercased text, in dictionary order, and the
    single tag [General] when there is none: the list is never empty, has
    no repeated name, and holds [General] only as its sole entry. *)
Theorem extract_department_metadata_spec (text : string) :
  extract_department_metadata text
  = match matched_departments text with
    | [] => ["General"]
    | _ :: _ => matched_departments text
    end
  ∧ extract_department_metadata text ≠ []
  ∧ NoDup (extract_department_metadata text)
  ∧ (∀ d, d ∈ extract_department_metadata text →
          d = "General" ∨ d ∈ department_names)
  ∧ ("General" ∈ extract_department_metadata text →
     extract_department_metadata text = ["General"]).
Proof.
  assert (Heq : extract_department_metadata text
                = match matched_departments text with
                  | [] => ["General"]
                  | _ :: _ => matched_departments text
                  end).
  { unfold extract_department_metadata, matched_departments.
    by rewrite (fold_left_cond_snoc (fun item => any_in (snd item) (lower text)) fst). }
  assert (Hnd : NoDup (matched_departments text)).
  { eapply sublist_NoDup;
      [apply department_names_NoDup|apply matched_departments_sublist]. }
  assert (Hsub : ∀ d, d ∈ matched_departments text → d ∈ department_names).
  { intros d. apply sublist_subseteq, matched_departments_sublist. }
  split; [done|]. rewrite Heq.
  destruct (matched_departments text) as [|d0 l] eqn:Hm.
  - split; [done|]. split; [apply NoDup_singleton|]. split; [|done].
    intros d ->%list_elem_of_singleton. by left.
  - split; [done|]. split; [done|]. split; [by right; apply Hsub|].
    intros Hg%Hsub. exfalso. revert Hg.
    apply (bool_decide_unpack _). by vm_compute.
Qed.

(** X2. The section type of a text is one of the seven section types of
    the data model, and the tests are tried in a fixed order: a text with
    an admission word is tagged [admissions] whatever else it mentions,
    and a text with none of the listed words is tagged [general_info]. *)
Theorem extract_section_type_spec (text : string) :
  In (extract_section_type text) section_types
  ∧ (any_in ["admission"; "eligibility"; "requirement"; "criteria"]
       (lower text) = true →
     extract_section_type text = "admissions")
  ∧ (extract_section_type text = "general_info" →
     ∀ w, In w ["admission"; "eligibility"; "requirement"; "criteria";
                "fee"; "tuition"; "cost"; "charges";
                "course"; "syllabus"; "curriculum"; "semester";
                "faculty"; "professor"; "dr."; "lecturer";
                "head of department";
                "scholarship"; "financial aid"; "merit";
                "hostel"; "accommodation"; "residence"] →
          contains w (lower text) = false).
Proof.
  unfold extract_section_type. repeat split.
  - repeat case_match; simpl; tauto.
  - by intros ->.
  - repeat case_match; try discriminate. intros _ w Hw.
    simpl in Hw.
    repeat (destruct Hw as [<-|Hw];
            [match goal with
             | H : any_in _ _ = false |- _ =>
                 solve [apply (any_in_false _ _ _ H); simpl; tauto]
             end|]).
    done.
Qed.

Lemma tag_chunk_lookup_page i chunk :
  metadata (tag_chunk i chunk) !! "page"
  = Some (default (MStr "unknown") (metadata chunk !! "page")).
Proof.
  unfold tag_chunk. cbn [metadata].
  rewrite !lookup_insert_ne by done.
  destruct (metadata chunk !! "page") as [p|] eqn:Hp; simpl.
  - by rewrite !lookup_insert_ne by done.
  - by rewrite lookup_insert_eq.
Qed.

Lemma tag_chunk_lookup_other i chunk key :
  key ≠ "page" →
  metadata (tag_chunk i chunk) !! key
  = (<["chunk_id" := MInt i]>
       (<["section_type" := MStr (extract_section_type (page_content chunk))]>
          (<["departments" :=
               MStr (join "," (extract_department_metadata (page_content chunk)))]>
             (metadata chunk)))) !! key.
Proof.
  intros Hk. unfold tag_chunk. cbn [metadata].
  rewrite !(lookup_insert_ne _ "chunk_id" "page") by done.
  rewrite !(lookup_insert_ne _ "section_type" "page") by done.
  rewrite !(lookup_insert_ne _ "departments" "page") by done.
  destruct (metadata chunk !! "page"); [done|].
  by rewrite lookup_insert_ne.
Qed.

Lemma tag_chunk_lookup_departments i chunk :
  metadata (tag_chunk i chunk) !! "departments"
  = Some (MStr (join "," (extract_department_metadata (page_content chunk)))).
Proof.
  rewrite tag_chunk_lookup_other by done.
  rewrite !lookup_insert_ne by done. by rewrite lookup_insert_eq.
Qed.

Lemma tag_chunk_lookup_chunk_id i chunk :
  metadata (tag_chunk i chunk) !! "chunk_id" = Some (MInt i).
Proof. rewrite tag_chunk_lookup_other by done. by rewrite lookup_insert_eq. Qed.

Lemma tag_chunk_well_tagged i chunk : well_tagged (tag_chunk i chunk).
Proof. unfold well_tagged. by rewrite tag_chunk_lookup_departments. Qed.

(** X3. Tagging a chunk keeps its text, writes the comma-joined department
    tags, the section type and the chunk index, keeps a page that is
    present and writes [unknown] for a missing one, and leaves every other
    key as it was. The tagged chunk carries a string [departments] tag,
    so its relevance score exists for every query. *)
Theorem tag_chunk_metadata (i : Z) (chunk : Doc) (query : string) :
  page_content (tag_chunk i chunk) = page_content chunk
  ∧ metadata (tag_chunk i chunk) !! "departments"
    = Some (MStr (join "," (extract_department_metadata (page_content chunk))))
  ∧ metadata (tag_chunk i chunk) !! "section_type"
    = Some (MStr (extract_section_type (page_content chunk)))
  ∧ metadata (tag_chunk i chunk) !! "chunk_id" = Some (MInt i)
  ∧ metadata (tag_chunk i chunk) !! "page"
    = Some (default (MStr "unknown") (metadata chunk !! "page"))
  ∧ (∀ key, key ∉ ["departments"; "section_type"; "chunk_id"; "page"] →
            metadata (tag_chunk i chunk) !! key = metadata chunk !! key)
  ∧ well_tagged (tag_chunk i chunk)
  ∧ ∃ score, relevance query (tag_chunk i chunk) = Ok score.
Proof.
  split; [done|]. split; [apply tag_chunk_lookup_departments|]. split.
  { rewrite tag_chunk_lookup_other by done.
    rewrite lookup_insert_ne by done. by rewrite lookup_insert_eq. }
  split; [apply tag_chunk_lookup_chunk_id|].
  split; [apply tag_chunk_lookup_page|]. split.
  { intros key Hk. rewrite tag_chunk_lookup_other by set_solver.
    rewrite !lookup_insert_ne by set_solver. done. }
  split; [apply tag_chunk_well_tagged|].
  apply score_doc_ok, tag_chunk_well_tagged.
Qed.

Lemma enumerate_fst {A} (l : list A) : ∀ start,
  map fst (enumerate l start)
  = map (fun k => start + Z.of_nat k) (seq 0 (length l)).
Proof.
  induction l as [|x l IH]; intros start; simpl; [done|].
  rewrite IH, <- seq_shift, map_map. f_equal; [f_equal; lia|].
  apply map_ext. intros k. lia.
Qed.

Lemma enumerate_snd {A} (l : list A) : ∀ start,
  map snd (enumerate l start) = l.
Proof.
  induction l as [|x l IH]; intros start; simpl; [done|]. by rewrite IH.
Qed.

(** X4. The tagging loop keeps the chunks and their texts in order and
    numbers them 0, 1, 2, ... Every tagged chunk carries a string
    [departments] tag, so re-ranking tagged chunks never raises. *)
Theorem tag_chunks_spec (splits : list Doc) (query : string) :
  map page_content (tag_chunks splits) = map page_content splits
  ∧ map (fun doc => metadata doc !! "chunk_id") (tag_chunks splits)
    = map (fun i => Some (MInt i)) (range (len splits))
  ∧ Forall well_tagged (tag_chunks splits)
  ∧ ∃ top_docs, rerank query (tag_chunks splits) = Ok top_docs.
Proof.
  unfold tag_chunks.
  assert (Hw : Forall well_tagged
                 (map (fun item => tag_chunk (fst item) (snd item))
                    (enumerate splits 0))).
  { apply Forall_map, Forall_forall. intros item _.
    apply tag_chunk_well_tagged. }
  split; [|split; [|split; [done|]]].
  - rewrite map_map. rewrite <- (enumerate_snd splits 0) at 2.
    by rewrite map_map.
  - rewrite map_map. unfold range, len. rewrite Nat2Z.id, map_map.
    transitivity (map (fun i => Some (MInt i)) (map fst (enumerate splits 0))).
    + rewrite map_map. apply map_ext. intros item.
      apply tag_chunk_lookup_chunk_id.
    + by rewrite enumerate_fst, map_map.
  - unfold rerank.
    destruct (score_all_ok (lower query) (list_to_set (split (lower query)))
                _ Hw) as (scored & -> & _). simpl. eauto.
Qed.

(** ** Request validation ([ChatRequest], main.py 23-30) *)

Lemma length_lstrip_by p s :
  (String.length (lstrip_by p s) ≤ String.length s)%nat.
Proof.
  induction s as [|c s IH]; simpl; [done|].
  destruct (p c); simpl; lia.
Qed.

Lemma length_rstrip_by p s :
  (String.length (rstrip_by p s) ≤ String.length s)%nat.
Proof.
  induction s as [|c s IH]; simpl; [done|].
  destruct (p c && is_empty (rstrip_by p s)); simpl; lia.
Qed.

Lemma length_strip s : (String.length (strip s) ≤ String.length s)%nat.
Proof.
  unfold strip, strip_by.
  etrans; [apply length_lstrip_by|apply length_rstrip_by].
Qed.

Lemma is_empty_false_length s :
  is_empty s = false → (1 ≤ String.length s)%nat.
Proof. destruct s; [done|]. simpl. lia. Qed.

(** X5. A message that passes the request validation reaches the handler
    trimmed: the validated field is the trimmed message, it is not empty,
    has between 1 and 500 characters and no whitespace at either end, and
    validating it again changes nothing. *)
Theorem validate_chat_request_ok (message validated : string) :
  validate_chat_request message = Ok validated →
  validated = strip message
  ∧ validated ≠ EmptyString
  ∧ (1 ≤ String.length validated ≤ 500)%nat
  ∧ strip validated = validated
  ∧ validate_chat_request validated = Ok validated.
Proof.
  unfold validate_chat_request.
  destruct ((String.length message <? 1)%nat || (500 <? String.length message)%nat)
    eqn:Hlen; [done|].
  destruct (is_empty message || is_empty (strip message)) eqn:He; [done|].
  intros [= <-].
  apply orb_false_elim in Hlen as [_ Hmax%Nat.ltb_ge].
  apply orb_false_elim in He as [_ He].
  pose proof (length_strip message) as Hle.
  pose proof (is_empty_false_length _ He) as Hpos.
  split; [done|]. split; [by destruct (strip message)|].
  split; [lia|]. split; [apply strip_idem|].
  rewrite strip_idem, He, orb_false_r.
  assert ((String.length (strip message) <? 1)%nat = false) as ->
    by (apply Nat.ltb_ge; lia).
  assert ((500 <? String.length (strip message))%nat = false) as ->
    by (apply Nat.ltb_ge; lia).
  done.
Qed.

Lemma validate_chat_request_ok_witness :
  validate_chat_request "  who is the dean  " = Ok "who is the dean"
  ∧ "who is the dean" = strip "  who is the dean  "
  ∧ "who is the dean" ≠ EmptyString
  ∧ (1 ≤ String.length "who is the dean" ≤ 500)%nat
  ∧ strip "who is the dean" = "who is the dean"
  ∧ validate_chat_request "who is the dean" = Ok "who is the dean".
Proof.
  assert (H : validate_chat_request "  who is the dean  " = Ok "who is the dean")
    by reflexivity.
  exact (conj H (validate_chat_request_ok _ _ H)).
Defined.

(** ** The directive pattern *)

Lemma match_action_here_literal rest :
  match_action_here ("Action: Search [" +:+ rest)
  = match rest with
    | EmptyString => None
    | String c rest' => String c <$> until_bracket rest'
    end.
Proof. reflexivity. Qed.

Lemma until_bracket_app t : ∀ rest,
  lacks "]" t = true → until_bracket (t +:+ String "]" rest) = Some t.
Proof.
  induction t as [|c t IH]; intros rest Hl; [done|].
  simpl in Hl. apply andb_prop in Hl as [Hc Ht].
  rewrite append_cons. simpl.
  apply negb_true_iff in Hc as ->. by rewrite IH.
Qed.

Lemma re_search_action_here s g :
  match_action_here s = Some g → re_search_action s = Some g.
Proof. intros H. destruct s; cbn [re_search_action]; by rewrite H. Qed.

(** X6. A directive written in the form the decision prompt asks for is
    read back: for non-empty search terms without a closing bracket,
    parsing [Action: Search [terms]], followed by any text, gives the
    terms. *)
Theorem directive_round_trip (terms rest : string) :
  terms ≠ EmptyString →
  lacks "]" terms = true →
  re_search_action ("Action: Search [" +:+ terms +:+ "]" +:+ rest)
  = Some terms.
Proof.
  intros Hne Hl. apply re_search_action_here.
  rewrite match_action_here_literal.
  destruct terms as [|c t]; [done|].
  simpl in Hl. apply andb_prop in Hl as [_ Ht].
  rewrite append_cons.
  change ("]" +:+ rest) with (String "]" rest).
  by rewrite until_bracket_app.
Qed.

Lemma directive_round_trip_witness :
  "dean of civil engineering" ≠ EmptyString
  ∧ lacks "]" "dean of civil engineering" = true
  ∧ re_search_action
      ("Action: Search [" +:+ "dean of civil engineering" +:+ "]" +:+ " ok")
    = Some "dean of civil engineering".
Proof.
  assert (H1 : "dean of civil engineering" ≠ EmptyString) by discriminate.
  assert (H2 : lacks "]" "dean of civil engineering" = true) by reflexivity.
  exact (conj H1 (conj H2 (directive_round_trip _ " ok" H1 H2))).
Defined.

Lemma append_assoc (a b c : string) : (a +:+ b) +:+ c = a +:+ (b +:+ c).
Proof.
  induction a as [|x a IH]; [done|]. by rewrite !append_cons, IH.
Qed.

Lemma length_append (a b : string) :
  String.length (a +:+ b) = (String.length a + String.length b)%nat.
Proof.
  induction a as [|x a IH]; [done|]. rewrite append_cons. simpl. by rewrite IH.
Qed.

Lemma match_ci_suffix lit : ∀ s r,
  match_ci lit s = Some r → ∃ pre, s = pre +:+ r.
Proof.
  induction lit as [|p lit IH]; intros s r; simpl.
  - intros [= <-]. by exists EmptyString.
  - destruct s as [|c s]; [done|].
    destruct (Ascii.eqb (lower_char c) (lower_char p)); [|done].
    intros (pre & ->)%IH. by exists (String c pre).
Qed.

Lemma lstrip_by_suffix p s : ∃ pre, s = pre +:+ lstrip_by p s.
Proof.
  induction s as [|c s (pre & IH)]; simpl; [by exists EmptyString|].
  destruct (p c); [|by exists EmptyString].
  exists (String c pre). rewrite append_cons. by rewrite <- IH.
Qed.

Lemma until_bracket_split s : ∀ g,
  until_bracket s = Some g → ∃ post, s = g +:+ String "]" post.
Proof.
  induction s as [|c s IH]; intros g; simpl; [done|].
  destruct (Ascii.eqb_spec c "]") as [->|Hc].
  - intros [= <-]. by exists s.
  - destruct (until_bracket s) as [g'|]; [|done].
    intros [= <-]. destruct (IH g' eq_refl) as (post & ->). by exists post.
Qed.

Lemma match_action_here_shape s g :
  match_action_here s = Some g →
  g ≠ EmptyString ∧ ∃ pre post, s = pre +:+ "[" +:+ g +:+ "]" +:+ post.
Proof.
  unfold match_action_here.
  destruct (match_ci "action:" s) as [s1|] eqn:H1; [|done]. cbn [mbind option_bind].
  destruct (match_ci "search" (lstrip_by isspace s1)) as [s2|] eqn:H2; [|done].
  cbn [mbind option_bind].
  apply match_ci_suffix in H1 as (p1 & ->).
  destruct (lstrip_by_suffix isspace s1) as (p2 & Hp2).
  apply match_ci_suffix in H2 as (p3 & Hp3).
  destruct (lstrip_by_suffix isspace s2) as (p4 & Hp4).
  destruct (lstrip_by isspace s2) as [|b t] eqn:Hl; [done|].
  destruct (Ascii.eqb_spec b "[") as [->|Hb].
  2:{ destruct b as [[] [] [] [] [] [] [] []]; destruct t; done. }
  destruct t as [|c rest]; [done|].
  destruct (until_bracket rest) as [g'|] eqn:Hu; [|done].
  intros [= <-]. split; [done|].
  apply until_bracket_split in Hu as (post & ->).
  exists (p1 +:+ p2 +:+ p3 +:+ p4), post.
  rewrite Hp2, Hp3, Hp4. rewrite !append_assoc. done.
Qed.

(** X7. Search terms are only ever taken from a bracketed part of the
    model's response: when the directive pattern matches, the extracted
    group is not empty and the response holds it between an opening and a
    closing bracket. *)
Theorem re_search_action_shape (response group1 : string) :
  re_search_action response = Some group1 →
  group1 ≠ EmptyString
  ∧ ∃ pre post, response = pre +:+ "[" +:+ group1 +:+ "]" +:+ post.
Proof.
  induction response as [|c s IH]; cbn [re_search_action].
  - destruct (match_action_here EmptyString) eqn:H; [|done].
    intros [= <-]. by apply match_action_here_shape.
  - destruct (match_action_here (String c s)) eqn:H.
    + intros [= <-]. by apply match_action_here_shape.
    + intros (Hne & pre & post & ->)%IH. split; [done|].
      by exists (String c pre), post.
Qed.

Lemma re_search_action_shape_witness :
  re_search_action "I will look. ACTION:  search [ fee structure ] now"
  = Some " fee structure "
  ∧ " fee structure " ≠ EmptyString
  ∧ ∃ pre post,
      "I will look. ACTION:  search [ fee structure ] now"
      = pre +:+ "[" +:+ " fee structure " +:+ "]" +:+ post.
Proof.
  assert (H : re_search_action
                "I will look. ACTION:  search [ fee structure ] now"
              = Some " fee structure ") by reflexivity.
  exact (conj H (re_search_action_shape _ _ H)).
Defined.

(** ** Domain guardrail *)

Lemma uet_keywords_lowercase kw : In kw uet_keywords → lower kw = kw.
Proof.
  unfold uet_keywords. simpl.
  intros H. repeat (destruct H as [<-|H]; [reflexivity|]). done.
Qed.

(** X8. The keyword test is a substring test without regard to case: a
    query that contains a domain keyword anywhere, as written or after
    lowercasing, is accepted, whatever its length and its other words. *)
Theorem keyword_accepted (query kw : string) :
  In kw uet_keywords →
  contains kw query = true ∨ contains kw (lower query) = true →
  is_uet_related query = true.
Proof.
  intros Hkw Hc.
  assert (contains kw (lower query) = true) as Hl.
  { destruct Hc as [Hc|Hc]; [|done].
    rewrite <- (uet_keywords_lowercase kw Hkw). by apply contains_lower. }
  unfold is_uet_related.
  assert (any_in uet_keywords (lower query) = true) as ->
    by (apply existsb_exists; eauto).
  by destruct (_ && _).
Qed.

Lemma keyword_accepted_witness :
  In "fee" uet_keywords
  ∧ (contains "fee" "The Coffee machine on the second floor is broken" = true
     ∨ contains "fee"
         (lower "The Coffee machine on the second floor is broken") = true)
  ∧ is_uet_related "The Coffee machine on the second floor is broken" = true.
Proof.
  assert (H1 : In "fee" uet_keywords) by (simpl; tauto).
  assert (H2 : contains "fee" "The Coffee machine on the second floor is broken"
               = true
               ∨ contains "fee"
                   (lower "The Coffee machine on the second floor is broken")
                 = true) by (left; reflexivity).
  exact (conj H1 (conj H2 (keyword_accepted _ "fee" H1 H2))).
Defined.

(** ** Query expansion *)

Lemma append_neq_self (a q : string) : a ≠ EmptyString → a +:+ q ≠ q.
Proof.
  intros Ha Heq. apply (f_equal String.length) in Heq.
  rewrite length_append in Heq. destruct a; [done|]. simpl in Heq. lia.
Qed.

Lemma first_seen_supseteq l : l ⊆ first_seen l.
Proof.
  induction l as [|x l IH]; simpl; [done|].
  intros y [->|Hy]%elem_of_cons; [left|].
  destruct (decide (y = x)) as [->|Hne]; [left|right].
  apply list_elem_of_filter. split; [done|]. by apply IH.
Qed.

(** A candidate that differs from the query survives, so the expansion has
    at least two entries. *)
Lemma expand_query_two q rest x :
  expand_candidates q = q :: rest → x ∈ rest → x ≠ q →
  (2 ≤ length (expand_query q))%nat.
Proof.
  intros Hc Hx Hne. unfold expand_query.
  rewrite dict_fromkeys_first_seen, Hc. simpl.
  assert (x ∈ filter (fun y => y ≠ q) (first_seen rest)) as Hin.
  { apply list_elem_of_filter. split; [done|]. by apply first_seen_supseteq. }
  destruct (filter (fun y => y ≠ q) (first_seen rest)); [|simpl; lia].
  by apply not_elem_of_nil in Hin.
Qed.

Lemma differs_from_one_of (a b q : string) : a ≠ b → a ≠ q ∨ b ≠ q.
Proof. intros Hab. destruct (decide (a = q)) as [->|]; [right|left]; congruence. Qed.

(** X9. The expansion is the query alone exactly when no keyword family
    matches its lowercased text; as soon as one matches, at least one
    synthetic query is added. *)
Theorem expand_query_alone (query : string) :
  expand_query query = [query] ↔ expansion_triggered query = false.
Proof.
  split.
  - intros Hone. destruct (expansion_triggered query) eqn:Ht; [exfalso|done].
    assert (2 ≤ length (expand_query query))%nat; [|rewrite Hone in *; simpl in *; lia].
    unfold expansion_triggered in Ht.
    set (ql := lower query) in *.
    assert (∃ rest x, expand_candidates query = query :: rest
                      ∧ x ∈ rest ∧ x ≠ query) as (rest & x & Hc & Hx & Hne);
      [|by eapply expand_query_two].
    unfold expand_candidates. fold ql.
    destruct (any_in faculty_family ql) eqn:Hfac.
    { destruct (find _ expand_departments);
        repeat case_match; simpl; eexists; exists ("faculty list " +:+ query);
        (split; [reflexivity|]); (split; [set_solver|by apply append_neq_self]). }
    destruct (any_in program_family ql) eqn:Hprog.
    { destruct (find _ expand_programs);
        repeat case_match; simpl; eexists;
        exists ("program offered by department " +:+ query);
        (split; [reflexivity|]); (split; [set_solver|by apply append_neq_self]). }
    destruct (any_in admission_family ql) eqn:Hadm.
    { repeat case_match; simpl; eexists;
        exists ("admission requirements " +:+ query);
        (split; [reflexivity|]); (split; [set_solver|by apply append_neq_self]). }
    destruct (contains "transportation" ql) eqn:Htr.
    { destruct (differs_from_one_of "civil engineering transportation"
                  "transportation engineering department" query) as [Hd|Hd];
        [done| |];
        repeat case_match; simpl; eexists; eexists;
        (split; [reflexivity|]); (split; [|exact Hd]); set_solver. }
    destruct (contains "geological" ql || contains "geotechnical" ql) eqn:Hgeo.
    { destruct (differs_from_one_of "mining geological engineering"
                  "civil geotechnical engineering" query) as [Hd|Hd];
        [done| |];
        simpl; eexists; eexists;
        (split; [reflexivity|]); (split; [|exact Hd]); set_solver. }
    simpl in Ht. apply orb_false_elim in Hgeo as [Hg1 Hg2].
    by rewrite Hg1, Hg2 in Ht.
  - intros Ht. unfold expansion_triggered in Ht.
    apply orb_false_elim in Ht as [Ht Hg2].
    apply orb_false_elim in Ht as [Ht Hg1].
    apply orb_false_elim in Ht as [Ht Htr].
    apply orb_false_elim in Ht as [Ht Hadm].
    apply orb_false_elim in Ht as [Hfac Hprog].
    unfold expand_query. rewrite dict_fromkeys_first_seen.
    unfold expand_candidates.
    by rewrite Hfac, Hprog, Hadm, Htr, Hg1, Hg2.
Qed.

Lemma department_entry_not_template dept q :
  In dept expand_departments →
  dept +:+ " department faculty" ≠ "faculty list " +:+ q
  ∧ dept +:+ " department faculty" ≠ "staff members " +:+ q.
Proof.
  unfold expand_departments. simpl. intros H.
  repeat (destruct H as [<-|H]; [split; discriminate|]). done.
Qed.

(** X10. For a faculty query that names a department and is not itself the
    department entry, the expansion is exactly the query, its two faculty
    variants and the entry of the first department of the list found in
    it: the limit of 4 is reached there, so neither the second department
    entry nor any program, admission, transportation or geological
    expansion is ever searched for such a query. *)
Theorem expand_query_faculty_department (query dept : string) :
  any_in faculty_family (lower query) = true →
  find (fun d => contains d (lower query)) expand_departments = Some dept →
  query ≠ dept +:+ " department faculty" →
  expand_query query
  = [query; "faculty list " +:+ query; "staff members " +:+ query;
     dept +:+ " department faculty"].
Proof.
  intros Hfac Hfind Hq.
  assert (∃ tl, expand_candidates query
                = query :: ("faculty list " +:+ query)
                  :: ("staff members " +:+ query)
                  :: (dept +:+ " department faculty")
                  :: (dept +:+ " chairperson head") :: tl) as (tl & Hc).
  { unfold expand_candidates. rewrite Hfac, Hfind.
    repeat case_match; simpl; eexists; reflexivity. }
  apply find_some in Hfind as [Hin _].
  destruct (department_entry_not_template dept query Hin) as [Hd1 Hd2].
  assert (Hf : "faculty list " +:+ query ≠ query) by (by apply append_neq_self).
  assert (Hs : "staff members " +:+ query ≠ query) by (by apply append_neq_self).
  assert (Hsf : "staff members " +:+ query ≠ "faculty list " +:+ query)
    by discriminate.
  assert (Hd0 : dept +:+ " department faculty" ≠ query) by congruence.
  unfold expand_query. rewrite dict_fromkeys_first_seen, Hc.
  cbn [first_seen].
  rewrite (filter_cons_True _ (dept +:+ " department faculty")) by done.
  rewrite (filter_cons_True _ ("staff members " +:+ query)) by done.
  rewrite (filter_cons_True _ (dept +:+ " department faculty")) by done.
  rewrite (filter_cons_True _ ("faculty list " +:+ query)) by done.
  rewrite (filter_cons_True _ ("staff members " +:+ query)) by done.
  rewrite (filter_cons_True _ (dept +:+ " department faculty")) by done.
  reflexivity.
Qed.

Lemma expand_query_faculty_department_witness :
  any_in faculty_family
    (lower "Who is the dean of Civil Engineering and what is the admission fee?")
  = true
  ∧ find (fun d => contains d
            (lower "Who is the dean of Civil Engineering and what is the admission fee?"))
      expand_departments = Some "civil"
  ∧ "Who is the dean of Civil Engineering and what is the admission fee?"
    ≠ "civil" +:+ " department faculty"
  ∧ expand_query
      "Who is the dean of Civil Engineering and what is the admission fee?"
    = ["Who is the dean of Civil Engineering and what is the admission fee?";
       "faculty list "
         +:+ "Who is the dean of Civil Engineering and what is the admission fee?";
       "staff members "
         +:+ "Who is the dean of Civil Engineering and what is the admission fee?";
       "civil" +:+ " department faculty"].
Proof.
  assert (H1 : any_in faculty_family
                 (lower "Who is the dean of Civil Engineering and what is the admission fee?")
               = true) by reflexivity.
  assert (H2 : find (fun d => contains d
                       (lower "Who is the dean of Civil Engineering and what is the admission fee?"))
                 expand_departments = Some "civil") by reflexivity.
  assert (H3 : "Who is the dean of Civil Engineering and what is the admission fee?"
               ≠ "civil" +:+ " department faculty") by discriminate.
  exact (conj H1 (conj H2 (conj H3
           (expand_query_faculty_department _ "civil" H1 H2 H3)))).
Defined.

(** ** Retriever deduplication *)

Section DedupInvariants.
Variable hash : string -> Z.
Local Abbreviation key := (chunk_key hash).

Lemma first_by_key_sublist docs : ∀ seen,
  first_by_key key seen docs `sublist_of` docs.
Proof.
  induction docs as [|d ds IH]; intros seen; simpl; [done|].
  destruct (decide (key d ∈ seen)).
  - by apply sublist_cons.
  - by apply sublist_skip.
Qed.

Lemma first_by_key_NoDup docs : ∀ seen,
  NoDup (map key (first_by_key key seen docs)).
Proof.
  induction docs as [|d ds IH]; intros seen; simpl; [constructor|].
  destruct (decide (key d ∈ seen)); [done|].
  simpl. constructor; [|done].
  intros (d' & Hk & Hd')%list_elem_of_fmap.
  apply first_by_key_fresh in Hd'. set_solver.
Qed.

Lemma first_by_key_covers docs : ∀ seen d,
  d ∈ docs →
  key d ∈ seen ∨ ∃ d', d' ∈ first_by_key key seen docs ∧ key d' = key d.
Proof.
  induction docs as [|x ds IH]; intros seen d; simpl.
  - by intros ?%not_elem_of_nil.
  - intros [->|Hd]%elem_of_cons.
    + destruct (decide (key x ∈ seen)); [by left|].
      right. exists x. split; [left|done].
    + destruct (decide (key x ∈ seen)) as [Hx|Hx]; [by apply IH|].
      destruct (IH ({[key x]} ∪ seen) d Hd) as [Hs|(d' & Hd' & Hk)].
      * apply elem_of_union in Hs as [->%elem_of_singleton|Hs]; [|by left].
        right. exists x. split; [left|done].
      * right. exists d'. split; [by right|done].
Qed.

Lemma first_by_key_fixed docs : ∀ seen,
  NoDup (map key docs) → (∀ d, d ∈ docs → key d ∉ seen) →
  first_by_key key seen docs = docs.
Proof.
  induction docs as [|d ds IH]; intros seen Hnd Hseen; simpl; [done|].
  apply NoDup_cons in Hnd as [Hd Hnd].
  rewrite decide_False by (apply Hseen; left). f_equal.
  apply IH; [done|]. intros d' Hd'.
  assert (key d' ≠ key d).
  { intros Heq. apply Hd. rewrite <- Heq. apply list_elem_of_fmap. eauto. }
  assert (key d' ∉ seen) by (apply Hseen; by right). set_solver.
Qed.

(** On a stream: the collection is the stream with chunks left out, has
    distinct keys, represents every key, and is a fixed point. *)
Lemma unique_chunks_laws (docs : list Doc) :
  unique_chunks hash docs `sublist_of` docs
  ∧ NoDup (map key (unique_chunks hash docs))
  ∧ (∀ d, d ∈ docs →
          ∃ d', d' ∈ unique_chunks hash docs ∧ key d' = key d)
  ∧ unique_chunks hash (unique_chunks hash docs) = unique_chunks hash docs.
Proof.
  rewrite !unique_chunks_first_by_key.
  split; [apply first_by_key_sublist|].
  split; [apply first_by_key_NoDup|]. split.
  - intros d Hd. destruct (first_by_key_covers docs ∅ d Hd) as [?|?];
      [set_solver|done].
  - apply first_by_key_fixed; [apply first_by_key_NoDup|set_solver].
Qed.

End DedupInvariants.

Section RetrieverInvariants.
Context {W : Type} {E : External W}.

(** X11. The unique collection the retriever builds over all expansion
    queries is the stream of chunks the index returned with chunks left
    out, in the same order; no two of its chunks share a key; every chunk
    the index returned has its key represented in it; the set of seen keys
    is the set of its keys; and deduplicating it again changes nothing. *)
Theorem unique_chunks_invariants (queries : list string) (st st' : St W)
    (all_docs : list Doc) (seen : gset Z) :
  retrieve_loop queries ([], ∅) st = (Ok (all_docs, seen), st') →
  all_docs `sublist_of` retrieved_stream queries (world st)
  ∧ NoDup (map (chunk_key py_hash) all_docs)
  ∧ (∀ d, d ∈ retrieved_stream queries (world st) →
          ∃ d', d' ∈ all_docs ∧ chunk_key py_hash d' = chunk_key py_hash d)
  ∧ seen = list_to_set (map (chunk_key py_hash) all_docs)
  ∧ unique_chunks py_hash all_docs = all_docs.
Proof.
  intros Hloop.
  pose proof (retrieve_loop_collects _ _ _ _ _ Hloop) as Hacc.
  rewrite dedup_into_first_by_key in Hacc. injection Hacc as Hdocs Hseen.
  cbn [app] in Hdocs.
  destruct (unique_chunks_laws py_hash (retrieved_stream queries (world st)))
    as (Hsub & Hnd & Hcov & Hfix).
  rewrite unique_chunks_first_by_key in Hsub, Hnd, Hcov.
  rewrite !unique_chunks_first_by_key in Hfix.
  rewrite <- Hdocs in Hsub, Hnd, Hcov, Hfix.
  split; [done|]. split; [done|]. split; [done|].
  split; [|by rewrite unique_chunks_first_by_key].
  rewrite Hseen. apply set_eq. intros k.
  rewrite elem_of_union, !elem_of_list_to_set, !list_elem_of_fmap.
  split.
  - intros [(d & -> & Hd)|[]%not_elem_of_empty].
    destruct (Hcov d Hd) as (d' & Hd' & Hk). eauto.
  - intros (d & -> & Hd). left. exists d. split; [done|].
    by apply (sublist_subseteq _ _ Hsub).
Qed.

End RetrieverInvariants.

Lemma unique_chunks_invariants_witness :
  retrieve_loop (E := three_chunk_index) (expand_query "who is the dean")
    ([], ∅) st0
  = (Ok ([chunk_a; chunk_c],
         {[ chunk_key stub_hash chunk_c ]} ∪ ({[ chunk_key stub_hash chunk_a ]} ∪ ∅)),
     mkSt tt (map Retrieved (expand_query "who is the dean")))
  ∧ retrieved_stream (E := three_chunk_index) (expand_query "who is the dean")
      (world st0)
    = [chunk_a; chunk_c; chunk_b; chunk_a; chunk_c; chunk_b;
       chunk_a; chunk_c; chunk_b]
  ∧ [chunk_a; chunk_c]
      `sublist_of` retrieved_stream (E := three_chunk_index)
                     (expand_query "who is the dean") (world st0)
  ∧ NoDup (map (chunk_key stub_hash) [chunk_a; chunk_c])
  ∧ (∀ d, d ∈ retrieved_stream (E := three_chunk_index)
                (expand_query "who is the dean") (world st0) →
          ∃ d', d' ∈ [chunk_a; chunk_c]
                ∧ chunk_key stub_hash d' = chunk_key stub_hash d)
  ∧ ({[ chunk_key stub_hash chunk_c ]} ∪ ({[ chunk_key stub_hash chunk_a ]} ∪ ∅)
      : gset Z)
    = list_to_set (map (chunk_key stub_hash) [chunk_a; chunk_c])
  ∧ unique_chunks stub_hash [chunk_a; chunk_c] = [chunk_a; chunk_c].
Proof.
  assert (H1 : retrieve_loop (E := three_chunk_index)
                 (expand_query "who is the dean") ([], ∅) st0
               = (Ok ([chunk_a; chunk_c],
                      {[ chunk_key stub_hash chunk_c ]}
                        ∪ ({[ chunk_key stub_hash chunk_a ]} ∪ ∅)),
                  mkSt tt (map Retrieved (expand_query "who is the dean"))))
    by (by vm_compute).
  split; [exact H1|]. split; [reflexivity|].
  exact (unique_chunks_invariants (E := three_chunk_index)
           (expand_query "who is the dean") st0 _ _ _ H1).
Defined.

(** ** Re-ranking *)

Lemma insert_desc_head x l :
  Forall (score_ge x) l → insert_desc x l = x :: l.
Proof.
  destruct 1 as [|y l Hy _]; simpl; [done|].
  unfold score_ge in Hy. by destruct (Z.ltb_spec (fst x) (fst y)); [lia|].
Qed.

Lemma sort_desc_sorted_id l : StronglySorted score_ge l → sort_desc l = l.
Proof.
  induction 1 as [|x l Hs IH Hx]; simpl; [done|].
  rewrite IH. by apply insert_desc_head.
Qed.

Lemma score_all_scores ql kw docs scored :
  score_all ql kw docs = Ok scored →
  Forall (fun sd => score_doc ql kw (snd sd) = Ok (fst sd)) scored.
Proof.
  revert scored. induction docs as [|d docs IH]; intros scored; simpl.
  - intros [= <-]. constructor.
  - destruct (score_doc ql kw d) as [s|] eqn:Hs; simpl; [|done].
    destruct (score_all ql kw docs) as [sc|]; simpl; [|done].
    intros [= <-]. constructor; [done|]. by apply IH.
Qed.

Lemma score_all_rescore ql kw scored :
  Forall (fun sd => score_doc ql kw (snd sd) = Ok (fst sd)) scored →
  score_all ql kw (map snd scored) = Ok scored.
Proof.
  induction 1 as [|[s d] scored Hsd _ IH]; simpl; [done|].
  simpl in Hsd. by rewrite Hsd, IH.
Qed.

Lemma StronglySorted_take {A} (R : A → A → Prop) n l :
  StronglySorted R l → StronglySorted R (take n l).
Proof.
  intros Hs. revert n. induction Hs as [|x l Hs IH Hx]; intros [|n]; simpl;
    try constructor; [apply IH|by apply Forall_take].
Qed.

(** X12. Re-ranking is idempotent: re-ranking the chunks it returned, for
    the same query, returns them again in the same order. *)
Theorem rerank_idempotent (query : string) (docs top_docs : list Doc) :
  rerank query docs = Ok top_docs →
  rerank query top_docs = Ok top_docs.
Proof.
  unfold rerank, top_of.
  destruct (score_all _ _ docs) as [scored|] eqn:Hs; cbn [res_bind]; [|done].
  intros [= <-].
  set (S := take 6 (sort_desc scored)).
  assert (HS : Forall (fun sd => score_doc (lower query)
                         (list_to_set (split (lower query))) (snd sd)
                       = Ok (fst sd)) S).
  { apply Forall_take. apply score_all_scores in Hs.
    by rewrite sort_desc_perm. }
  rewrite (score_all_rescore _ _ S HS). cbn [res_bind]. do 2 f_equal.
  rewrite sort_desc_sorted_id
    by (apply StronglySorted_take, sort_desc_sorted).
  apply take_ge. unfold S. rewrite length_take. lia.
Qed.

Lemma rerank_idempotent_witness :
  rerank "mathematics chairperson" [chunk_a; chunk_c; chunk_b]
  = Ok [chunk_c; chunk_a; chunk_b]
  ∧ rerank "mathematics chairperson" [chunk_c; chunk_a; chunk_b]
    = Ok [chunk_c; chunk_a; chunk_b].
Proof.
  assert (H : rerank "mathematics chairperson" [chunk_a; chunk_c; chunk_b]
              = Ok [chunk_c; chunk_a; chunk_b]) by (by vm_compute).
  exact (conj H (rerank_idempotent _ _ _ H)).
Defined.

(** ** The relevance score *)

Lemma sumZ_const {A} (c : Z) (l : list A) :
  sumZ (map (fun _ => c) l) = c * Z.of_nat (length l).
Proof. induction l as [|x l IH]; simpl; lia. Qed.

Lemma fold_cond_bounds {A} (f : A → bool) (c : Z) (l : list A) :
  0 <= c →
  ∀ s0, s0 <= fold_left (fun s x => if f x then s + c else s) l s0
             <= s0 + c * Z.of_nat (length l).
Proof.
  intros Hc. induction l as [|x l IH]; intros s0; simpl; [lia|].
  specialize (IH (if f x then s0 + c else s0)). destruct (f x); lia.
Qed.

Lemma windows_length L ws :
  (1 ≤ L)%nat → length (windows L ws) = (S (length ws) - L)%nat.
Proof.
  intros HL. rewrite <- windows_seq by done.
  by rewrite length_map, length_seq.
Qed.

Lemma phrase_overlap_bounds ql cl :
  0 <= phrase_overlap ql cl <= 90 * len (split ql).
Proof.
  unfold phrase_overlap, len. cbn [flat_map].
  rewrite !sumZ_app, !sumZ_const. change (sumZ []) with 0.
  pose proof (length_filter (fun w => contains (join " " w) cl = true)
                (windows (Z.to_nat 4) (split ql))) as H4.
  pose proof (length_filter (fun w => contains (join " " w) cl = true)
                (windows (Z.to_nat 3) (split ql))) as H3.
  pose proof (length_filter (fun w => contains (join " " w) cl = true)
                (windows (Z.to_nat 2) (split ql))) as H2.
  rewrite windows_length in H4, H3, H2 by lia. lia.
Qed.

Lemma size_list_to_set_le (l : list string) :
  (size (list_to_set l : gset string) ≤ length l)%nat.
Proof.
  induction l as [|x l IH].
  - by rewrite list_to_set_nil, size_empty.
  - rewrite list_to_set_cons, size_union_alt, size_singleton. simpl length.
    assert (size (list_to_set l ∖ {[x]} : gset string)
            ≤ size (list_to_set l : gset string))%nat
      by (apply subseteq_size; set_solver).
    lia.
Qed.

(** X13. A relevance score is never negative and is bounded by the query
    alone: with [n] whitespace tokens in the query it is at most
    [92 * n + 150], however long the chunk is. *)
Theorem relevance_bounds (query : string) (doc : Doc) (score : Z) :
  relevance query doc = Ok score →
  0 <= score <= 92 * len (split (lower query)) + 150.
Proof.
  unfold relevance, score_doc.
  destruct (meta_lower _) as [dept_meta|]; cbn [res_bind]; [|done].
  intros Heq.
  assert (Hs := f_equal (fun r => match r with Ok a => a | Raise _ => 0 end) Heq).
  cbv beta iota in Hs. subst score. clear Heq.
  set (ql := lower query). set (cl := lower (page_content doc)).
  rewrite phrase_loop_spec.
  pose proof (phrase_overlap_bounds ql cl) as Hp.
  assert (Hk : (size ((list_to_set (split ql) : gset string)
                      ∩ list_to_set (split cl)) ≤ length (split ql))%nat).
  { etrans; [|apply size_list_to_set_le]. apply subseteq_size. set_solver. }
  set (k := size _) in *. set (p := phrase_overlap ql cl) in *.
  match goal with
  | |- context [fold_left _ dept_words ?s] => set (s1 := s)
  end.
  assert (Hs1 : 0 + p + Z.of_nat k * 2 <= s1 <= 0 + p + Z.of_nat k * 2 + 90).
  { unfold s1. destruct (any_in role_query_terms ql); [|lia].
    pose proof (fold_cond_bounds (fun term => contains term cl) 15
                  faculty_terms ltac:(lia) (0 + p + Z.of_nat k * 2)) as H.
    simpl length in H. lia. }
  pose proof (fold_cond_bounds
                (fun dept_word =>
                   contains dept_word ql
                   && contains dept_word (cl +:+ " " +:+ dept_meta))
                10 dept_words ltac:(lia) s1) as Hd.
  simpl length in Hd. unfold len in *. lia.
Qed.

Lemma relevance_bounds_witness :
  relevance "mathematics chairperson" chunk_c = Ok 42
  ∧ 0 <= 42 <= 92 * len (split (lower "mathematics chairperson")) + 150.
Proof.
  assert (H : relevance "mathematics chairperson" chunk_c = Ok 42)
    by (by vm_compute).
  exact (conj H (relevance_bounds _ _ _ H)).
Defined.

Lemma lower_char_idem c : lower_char (lower_char c) = lower_char c.
Proof. by destruct c as [[] [] [] [] [] [] [] []]. Qed.

Lemma lower_idem s : lower (lower s) = lower s.
Proof.
  induction s as [|c s IH]; simpl; [done|]. by rewrite lower_char_idem, IH.
Qed.

(** X14. Letter case plays no role in the decisions of the core: the
    relevance score is the same for the lowercased query and the
    lowercased chunk text, and the guardrail and the direct-search test
    give the same answer for the lowercased query. *)
Theorem decisions_ignore_case (query : string) (doc : Doc) :
  relevance (lower query) (lower_doc doc) = relevance query doc
  ∧ is_uet_related (lower query) = is_uet_related query
  ∧ should_search_directly (lower query) = should_search_directly query.
Proof.
  unfold relevance, score_doc, is_uet_related, should_search_directly, lower_doc.
  cbn [page_content metadata]. by rewrite !lower_idem.
Qed.

Lemma score_doc_raise ql kw doc e :
  score_doc ql kw doc = Raise e → e = int_lower_error ∧ ¬ well_tagged doc.
Proof.
  unfold score_doc, well_tagged, meta_get.
  destruct (metadata doc !! "departments") as [[s|n]|]; cbn [default meta_lower res_bind];
    try done.
  intros [= <-]. split; [done|]. tauto.
Qed.

Lemma score_all_raise ql kw docs e :
  score_all ql kw docs = Raise e →
  e = int_lower_error ∧ ¬ Forall well_tagged docs.
Proof.
  induction docs as [|d docs IH]; simpl; [done|].
  destruct (score_doc ql kw d) as [s|e'] eqn:Hd; cbn [res_bind].
  - destruct (score_all ql kw docs) as [sc|e'] eqn:Hs; cbn [res_bind]; [done|].
    intros [= ->]. destruct IH as [-> Hn]; [done|]. split; [done|].
    intros H. apply Hn. by inversion H.
  - intros [= ->]. apply score_doc_raise in Hd as [-> Hn]. split; [done|].
    intros H. apply Hn. by inversion H.
Qed.

Lemma score_all_well_tagged ql kw docs scored :
  score_all ql kw docs = Ok scored → Forall well_tagged docs.
Proof.
  revert scored. induction docs as [|d docs IH]; intros scored Hs; [constructor|].
  simpl in Hs.
  destruct (score_doc ql kw d) as [s|] eqn:Hd; cbn [res_bind] in Hs; [|done].
  destruct (score_all ql kw docs) as [sc|] eqn:Hsc; cbn [res_bind] in Hs; [|done].
  constructor; [|by eapply IH].
  unfold score_doc, well_tagged, meta_get in *.
  by destruct (metadata d !! "departments") as [[?|?]|].
Qed.

Lemma score_doc_int_tagged ql kw doc :
  int_tagged doc → score_doc ql kw doc = Raise int_lower_error.
Proof.
  intros [n Hn]. unfold score_doc, meta_get. by rewrite Hn.
Qed.

(** X15. For chunks whose [departments] tag is absent, a string or an
    integer: re-ranking succeeds exactly when no chunk carries an integer
    tag; the score of a chunk with an integer tag is the attribute error of
    [.lower()] on an integer, and so is the outcome of re-ranking a list
    that holds such a chunk. *)
Theorem rerank_raises_iff (query : string) (docs : list Doc) :
  ((∃ top_docs, rerank query docs = Ok top_docs) ↔ Forall well_tagged docs)
  ∧ (∀ doc, int_tagged doc → relevance query doc = Raise int_lower_error)
  ∧ (Exists int_tagged docs → rerank query docs = Raise int_lower_error).
Proof.
  unfold rerank. split; [split|split].
  - intros [top Hr].
    destruct (score_all _ _ docs) as [scored|e] eqn:Hs; [|done].
    by eapply score_all_well_tagged.
  - intros Hw.
    destruct (score_all_ok (lower query) (list_to_set (split (lower query)))
                docs Hw) as (scored & -> & _). simpl. eauto.
  - intros doc Hd. by apply score_doc_int_tagged.
  - intros Hex.
    destruct (score_all _ _ docs) as [scored|e'] eqn:Hs; cbn [res_bind].
    + apply score_all_well_tagged in Hs. exfalso.
      apply Exists_exists in Hex as (d & Hd & [n Hn]).
      rewrite Forall_forall in Hs. specialize (Hs d Hd).
      unfold well_tagged in Hs. by rewrite Hn in Hs.
    + by apply score_all_raise in Hs as [-> _].
Qed.

(** ** Search and orchestration *)

Lemma expand_query_head q : ∃ tl, expand_query q = q :: tl.
Proof.
  destruct (expand_candidates_shape q) as (rest & Hc & _).
  unfold expand_query. rewrite dict_fromkeys_first_seen, Hc. simpl. eauto.
Qed.

Lemma expand_query_length q : (length (expand_query q) ≤ 4)%nat.
Proof. apply length_take_le. Qed.

Section SearchCalls.
Context {W : Type} {E : External W}.

(** The loop issues the queries in order and stops at the first failure. *)
Lemma retrieve_loop_trace_prefix queries : ∀ acc st r st',
  retrieve_loop queries acc st = (r, st') →
  ∃ n, trace st' = trace st ++ map Retrieved (take n queries)
       ∧ (∀ acc', r = Ok acc' → take n queries = queries).
Proof.
  induction queries as [|q queries IH]; intros acc st r st'; simpl.
  - intros [= <- <-]. exists 0%nat. by rewrite app_nil_r.
  - unfold bind, invoke_retriever.
    destruct (retriever_invoke q (world st)) as [[docs|e] w] eqn:Hq.
    + intros (n & Ht & Hfull)%IH. simpl in Ht. exists (S n). split.
      * rewrite Ht, <- (assoc_L (++)). done.
      * intros acc' Hr. simpl. f_equal. by eapply Hfull.
    + intros [= <- <-]. exists 1%nat. simpl. by rewrite take_0.
Qed.

Lemma retrieve_loop_issued queries : ∀ acc st,
  trace (snd (retrieve_loop queries acc st))
  = trace st ++ map Retrieved (issued_queries queries (world st)).
Proof.
  induction queries as [|q queries IH]; intros acc st; simpl.
  - by rewrite app_nil_r.
  - unfold bind, invoke_retriever.
    destruct (retriever_invoke q (world st)) as [[docs|e] w].
    + rewrite IH. simpl. by rewrite <- (assoc_L (++)).
    + done.
Qed.

Lemma issued_queries_prefix queries : ∀ w,
  issued_queries queries w `prefix_of` queries.
Proof.
  induction queries as [|q queries IH]; intros w; simpl; [done|].
  apply prefix_cons.
  destruct (retriever_invoke q w) as [[docs|e] w']; [apply IH|apply prefix_nil].
Qed.

Lemma retrieve_loop_ok_issued queries : ∀ acc st acc' st',
  retrieve_loop queries acc st = (Ok acc', st') →
  issued_queries queries (world st) = queries.
Proof.
  induction queries as [|q queries IH]; intros acc st acc' st'; simpl; [done|].
  unfold bind, invoke_retriever.
  destruct (retriever_invoke q (world st)) as [[docs|e] w]; [|done].
  intros H%IH. simpl in H. by rewrite H.
Qed.

Lemma retrieve_loop_raise_issued queries : ∀ acc st e st',
  retrieve_loop queries acc st = (Raise e, st') →
  ∃ q w w', last (issued_queries queries (world st)) = Some q
            ∧ retriever_invoke q w = (Raise e, w').
Proof.
  induction queries as [|q queries IH]; intros acc st e st'; simpl; [done|].
  unfold bind, invoke_retriever.
  destruct (retriever_invoke q (world st)) as [[docs|e'] w] eqn:Hq.
  - intros (q' & w1 & w2 & Hlast & Hr)%IH. simpl in Hlast.
    exists q', w1, w2. split; [|done].
    destruct (issued_queries queries w); [done|]. by rewrite last_cons, Hlast.
  - intros [= <- _]. by exists q, (world st), w.
Qed.

Lemma search_prospectus_state query st :
  snd (search_prospectus query st)
  = snd (retrieve_loop (expand_query query) ([], ∅) st).
Proof.
  unfold search_prospectus, try_catch, bind.
  destruct (retrieve_loop (expand_query query) ([], ∅) st)
    as [[[all_docs seen]|e] st1]; [|done].
  cbn [fst]. destruct all_docs; [done|].
  unfold lift. by destruct (rerank query _).
Qed.

(** X16. A search calls the retriever only, never the language model. The
    calls it makes are exactly the expansion queries that reach the index:
    in their order, each one up to and including the first whose call
    raises. So between 1 and 4 calls are made, all expansion queries are
    issued whenever no call raises (in particular when the result has
    [found] true), and when a call raises it is the last one made. *)
Theorem search_calls (query : string) (st : St W) :
  trace (snd (search_prospectus query st))
  = trace st
      ++ map Retrieved (issued_queries (expand_query query) (world st))
  ∧ issued_queries (expand_query query) (world st)
      `prefix_of` expand_query query
  ∧ (1 ≤ length (issued_queries (expand_query query) (world st)) ≤ 4)%nat
  ∧ (∀ acc st1,
       retrieve_loop (expand_query query) ([], ∅) st = (Ok acc, st1) →
       issued_queries (expand_query query) (world st) = expand_query query)
  ∧ (∀ res, fst (search_prospectus query st) = Ok res → found res = true →
            issued_queries (expand_query query) (world st)
            = expand_query query)
  ∧ (∀ e st1,
       retrieve_loop (expand_query query) ([], ∅) st = (Raise e, st1) →
       ∃ q w w',
         last (issued_queries (expand_query query) (world st)) = Some q
         ∧ retriever_invoke q w = (Raise e, w')).
Proof.
  split; [by rewrite search_prospectus_state, retrieve_loop_issued|].
  split; [apply issued_queries_prefix|]. split.
  { pose proof (prefix_length _ _
                  (issued_queries_prefix (expand_query query) (world st))) as Hle.
    pose proof (expand_query_length query).
    destruct (expand_query_head query) as (tl & Hhead).
    rewrite Hhead in *. simpl in *. lia. }
  split; [intros acc st1; apply retrieve_loop_ok_issued|].
  split; [|intros e st1; apply retrieve_loop_raise_issued].
  intros res Hres Hfound. unfold search_prospectus, try_catch, bind in Hres.
  destruct (retrieve_loop (expand_query query) ([], ∅) st)
    as [[acc|e] st1] eqn:Hl.
  - by eapply retrieve_loop_ok_issued.
  - simpl in Hres. injection Hres as <-. done.
Qed.

(** X17. When the retriever fails on the query itself, the first
    expansion query, the search stops there and reports the failure as an
    unsuccessful result whose context is the exception text after
    [Search error: ]; no exception leaves [search_prospectus]. *)
Theorem search_retriever_failure (query : string) (st : St W) (e : exn)
    (w' : W) :
  retriever_invoke query (world st) = (Raise e, w') →
  search_prospectus query st
  = (Ok {| found := false;
           context := "Search error: " +:+ exn_msg e;
           sources := [];
           doc_count := None |},
     mkSt w' (trace st ++ [Retrieved query])).
Proof.
  intros Hq. unfold search_prospectus, try_catch, bind.
  destruct (expand_query_head query) as (tl & ->).
  cbn [retrieve_loop]. unfold bind, invoke_retriever. by rewrite Hq.
Qed.

Lemma retrieve_loop_empty queries : ∀ acc st,
  (∀ q w, ∃ w', retriever_invoke q w = (Ok [], w')) →
  ∃ st', retrieve_loop queries acc st = (Ok acc, st')
         ∧ trace st' = trace st ++ map Retrieved queries.
Proof.
  induction queries as [|q queries IH]; intros acc st Hempty; simpl.
  - exists st. by rewrite app_nil_r.
  - unfold bind, invoke_retriever.
    destruct (Hempty q (world st)) as (w' & ->).
    destruct (IH acc (mkSt w' (trace st ++ [Retrieved q])) Hempty)
      as (st' & Hl & Ht).
    exists st'. split; [done|]. rewrite Ht. simpl.
    by rewrite <- (assoc_L (++)).
Qed.

(** X18. When the index returns no chunk for any query, the search
    issues every expansion query and reports the fixed unsuccessful
    result with no sources. *)
Theorem search_empty_index (query : string) (st : St W) :
  (∀ q w, ∃ w', retriever_invoke q w = (Ok [], w')) →
  ∃ st', search_prospectus query st
         = (Ok {| found := false;
                  context := "No relevant information found in the prospectus.";
                  sources := [];
                  doc_count := None |}, st')
         ∧ trace st' = trace st ++ map Retrieved (expand_query query).
Proof.
  intros Hempty. unfold search_prospectus, try_catch, bind.
  destruct (retrieve_loop_empty (expand_query query) ([], ∅) st Hempty)
    as (st' & -> & Ht).
  by exists st'.
Qed.

End SearchCalls.

Lemma search_retriever_failure_witness :
  retriever_invoke (External := failing_index) "who is the dean" (world st0)
  = (Raise (Exn OtherException "index offline"), tt)
  ∧ search_prospectus (E := failing_index) "who is the dean" st0
    = (Ok {| found := false;
             context := "Search error: "
                          +:+ exn_msg (Exn OtherException "index offline");
             sources := [];
             doc_count := None |},
       mkSt tt (trace st0 ++ [Retrieved "who is the dean"])).
Proof.
  assert (H : retriever_invoke (External := failing_index) "who is the dean"
                (world st0)
              = (Raise (Exn OtherException "index offline"), tt))
    by reflexivity.
  exact (conj H (search_retriever_failure (E := failing_index) _ st0 _ _ H)).
Defined.

Lemma search_empty_index_witness :
  (∀ q w, ∃ w', retriever_invoke (External := empty_index_offline_llm) q w
                = (Ok [], w'))
  ∧ ∃ st', search_prospectus (E := empty_index_offline_llm) "who is the dean" st0
           = (Ok {| found := false;
                    context := "No relevant information found in the prospectus.";
                    sources := [];
                    doc_count := None |}, st')
           ∧ trace st' = trace st0 ++ map Retrieved (expand_query "who is the dean").
Proof.
  assert (H : ∀ q w, ∃ w', retriever_invoke (External := empty_index_offline_llm)
                             q w = (Ok [], w'))
    by (intros q w; exists w; reflexivity).
  exact (conj H (search_empty_index (E := empty_index_offline_llm)
                   "who is the dean" st0 H)).
Defined.

Section OrchestratorCalls.
Context {W : Type} {E : External W}.

(** X19. Empty and out-of-domain input is answered before any external
    call: a query that is empty after trimming gets the fixed request for a
    question, a non-empty one that the guardrail rejects gets the fixed
    refusal, and in both cases the world and the trace are untouched. *)
Theorem process_query_rejects (user_query : string) (st : St W) :
  (strip user_query = EmptyString →
   process_query user_query st
   = (Ok "Please ask me a question about UET.", st))
  ∧ (strip user_query ≠ EmptyString →
     is_uet_related (strip user_query) = false →
     process_query user_query st
     = (Ok "I'm specialized in answering questions about UET departments, programs, admissions, and facilities. Please ask me about these topics!",
        st)).
Proof.
  unfold process_query. split.
  - by intros ->.
  - intros Hne Hrel. rewrite Hrel.
    by destruct (strip user_query).
Qed.

Lemma invoke_llm_trace prompt st r st' :
  invoke_llm prompt st = (r, st') → trace st' = trace st ++ [Generated prompt].
Proof.
  unfold invoke_llm. destruct (llm_invoke prompt (world st)).
  by intros [= _ <-].
Qed.

Lemma search_budget query st r st' :
  search_prospectus query st = (r, st') →
  ∃ rs, trace st' = trace st ++ rs
        ∧ Forall is_retrieval rs ∧ (length rs ≤ 4)%nat.
Proof.
  unfold search_prospectus, try_catch, bind.
  destruct (retrieve_loop (expand_query query) ([], ∅) st)
    as [[[all_docs seen]|e] st1] eqn:Hl;
    apply retrieve_loop_trace_prefix in Hl as (n & Ht & _);
    intros Hres.
  all: assert (st' = st1) as ->.
  { cbn [fst] in Hres. destruct all_docs; [by injection Hres|].
    unfold lift in Hres. destruct (rerank query _); by injection Hres. }
  2: { by injection Hres. }
  all: exists (map Retrieved (take n (expand_query query)));
    (split; [done|]);
    (split; [apply Forall_map, Forall_forall; intros; exact I|]);
    rewrite length_map, length_take;
    pose proof (expand_query_length query); lia.
Qed.

Lemma budget_none tr : within_budget tr tr.
Proof.
  exists [], [], []. rewrite !app_nil_r. repeat split; simpl; auto; lia.
Qed.

Lemma budget_search tr rs :
  Forall is_retrieval rs → (length rs ≤ 4)%nat → within_budget tr (tr ++ rs).
Proof.
  intros. exists [], rs, []. rewrite app_nil_r.
  repeat split; simpl; auto; lia.
Qed.

Lemma budget_search_gen tr rs p :
  Forall is_retrieval rs → (length rs ≤ 4)%nat →
  within_budget tr ((tr ++ rs) ++ [Generated p]).
Proof.
  intros. exists [], rs, [Generated p]. rewrite <- (assoc_L (++)).
  repeat split; simpl; auto; try lia. by repeat constructor.
Qed.

Lemma budget_gen tr p : within_budget tr (tr ++ [Generated p]).
Proof.
  exists [Generated p], [], []. repeat split; simpl; auto; try lia.
  by repeat constructor.
Qed.

Lemma budget_gen_search tr rs p :
  Forall is_retrieval rs → (length rs ≤ 4)%nat →
  within_budget tr ((tr ++ [Generated p]) ++ rs).
Proof.
  intros. exists [Generated p], rs, []. rewrite <- (assoc_L (++)), app_nil_r.
  repeat split; simpl; auto; try lia. by repeat constructor.
Qed.

Lemma budget_gen_search_gen tr rs p p' :
  Forall is_retrieval rs → (length rs ≤ 4)%nat →
  within_budget tr (((tr ++ [Generated p]) ++ rs) ++ [Generated p']).
Proof.
  intros. exists [Generated p], rs, [Generated p'].
  rewrite <- !(assoc_L (++)).
  repeat split; simpl; auto; try lia; by repeat constructor.
Qed.

Lemma run_enhanced_agent_budget user_query st r st' :
  run_enhanced_agent user_query st = (r, st') →
  within_budget (trace st) (trace st').
Proof.
  unfold run_enhanced_agent, bind, ret.
  destruct (should_search_directly user_query).
  - destruct (search_prospectus user_query st) as [[res|e] st1] eqn:Hs;
      apply search_budget in Hs as (rs & Ht & Hf & Hl); cbv beta iota.
    + destruct (negb (found res)).
      * intros [= _ <-]. rewrite Ht. by apply budget_search.
      * destruct (invoke_llm _ st1) as [[a|e] st2] eqn:Hg;
          apply invoke_llm_trace in Hg; intros [= _ <-];
          rewrite Hg, Ht; by apply budget_search_gen.
    + intros [= _ <-]. rewrite Ht. by apply budget_search.
  - destruct (invoke_llm (decision_prompt user_query) st)
      as [[response|e] st1] eqn:Hg0;
      apply invoke_llm_trace in Hg0; cbv beta iota.
    2:{ intros [= _ <-]. rewrite Hg0. apply budget_gen. }
    destruct (re_search_action response) as [group1|].
    + destruct (search_prospectus _ st1) as [[res|e] st2] eqn:Hs;
        apply search_budget in Hs as (rs & Ht & Hf & Hl); cbv beta iota.
      * destruct (negb (found res)).
        -- intros [= _ <-]. rewrite Ht, Hg0. by apply budget_gen_search.
        -- destruct (invoke_llm _ st2) as [[a|e] st3] eqn:Hg;
             apply invoke_llm_trace in Hg; intros [= _ <-];
             rewrite Hg, Ht, Hg0; by apply budget_gen_search_gen.
      * intros [= _ <-]. rewrite Ht, Hg0. by apply budget_gen_search.
    + destruct (any_in refusal_phrases (lower response)).
      * destruct (search_prospectus _ st1) as [[res|e] st2] eqn:Hs;
          apply search_budget in Hs as (rs & Ht & Hf & Hl); cbv beta iota.
        -- destruct (found res).
           ++ destruct (invoke_llm _ st2) as [[a|e] st3] eqn:Hg;
                apply invoke_llm_trace in Hg; intros [= _ <-];
                rewrite Hg, Ht, Hg0; by apply budget_gen_search_gen.
           ++ intros [= _ <-]. rewrite Ht, Hg0. by apply budget_gen_search.
        -- intros [= _ <-]. rewrite Ht, Hg0. by apply budget_gen_search.
      * intros [= _ <-]. rewrite Hg0. apply budget_gen.
Qed.

(** X20. Every request is answered, and within a fixed budget of external
    calls: [process_query] never raises, and the calls it makes are at most
    one generation (the decision), then at most 4 retrievals, then at most
    one generation (the answer). *)
Theorem process_query_budget (user_query : string) (st : St W) :
  (∃ text, fst (process_query user_query st) = Ok text)
  ∧ within_budget (trace st) (trace (snd (process_query user_query st))).
Proof.
  unfold process_query.
  destruct (is_empty (strip user_query)).
  { split; [by eexists|apply budget_none]. }
  destruct (negb (is_uet_related (strip user_query))).
  { split; [by eexists|apply budget_none]. }
  unfold try_catch.
  destruct (run_enhanced_agent (strip user_query) st) as [[a|e] st1] eqn:Hr;
    apply run_enhanced_agent_budget in Hr;
    (split; [by eexists|done]).
Qed.

Lemma search_first_retrieval query st :
  ∃ evs, trace (snd (search_prospectus query st))
         = trace st ++ Retrieved query :: evs.
Proof.
  unfold search_prospectus, try_catch, bind.
  destruct (expand_query_head query) as (tl & ->).
  cbn [retrieve_loop]. unfold bind, invoke_retriever.
  destruct (retriever_invoke query (world st)) as [[docs|e] w].
  - destruct (retrieve_loop tl _ _) as [[[all_docs seen]|e] st1] eqn:Hl;
      apply retrieve_loop_trace in Hl as (evs & Ht & _); simpl in Ht.
    + exists evs. rewrite <- (assoc_L (++)) in Ht. simpl in Ht.
      cbn [fst]. destruct all_docs; [done|].
      unfold lift. by destruct (rerank query _).
    + exists evs. by rewrite <- (assoc_L (++)) in Ht.
  - by exists [].
Qed.

(** X21. When the query is not a direct-search query and the model answers
    the decision prompt with a directive, the orchestrator next retrieves
    for the bracketed terms, with the blanks and quotes around them
    removed, not for the user's query. *)
Theorem directive_triggers_search (user_query terms : string) (st : St W)
    (w1 : W) :
  should_search_directly user_query = false →
  terms ≠ EmptyString →
  lacks "]" terms = true →
  llm_invoke (decision_prompt user_query) (world st)
  = (Ok ("Action: Search [" +:+ terms +:+ "]"), w1) →
  ∃ evs, trace (snd (run_enhanced_agent user_query st))
         = trace st ++ Generated (decision_prompt user_query)
             :: Retrieved (clean_terms terms) :: evs.
Proof.
  intros Hdirect Hne Hl Hllm.
  assert (Hparse : re_search_action ("Action: Search [" +:+ terms +:+ "]")
                   = Some terms).
  { apply re_search_action_here. rewrite match_action_here_literal.
    destruct terms as [|c t]; [done|].
    simpl in Hl. apply andb_prop in Hl as [_ Ht].
    rewrite append_cons. change "]" with (String "]" EmptyString).
    by rewrite until_bracket_app. }
  unfold run_enhanced_agent, bind. rewrite Hdirect.
  unfold invoke_llm at 1. rewrite Hllm. cbv beta iota. rewrite Hparse.
  fold (clean_terms terms).
  set (st1 := mkSt w1 (trace st ++ [Generated (decision_prompt user_query)])).
  destruct (search_first_retrieval (clean_terms terms) st1) as (evs & Ht).
  destruct (search_prospectus (clean_terms terms) st1) as [[res|e] st2];
    simpl in Ht; cbv beta iota.
  - destruct (negb (found res)).
    + exists evs. simpl. rewrite Ht. by rewrite <- (assoc_L (++)).
    + destruct (invoke_llm _ st2) as [r st3] eqn:Hg.
      apply invoke_llm_trace in Hg.
      exists (evs ++ [Generated (search_prompt user_query (context res))]).
      destruct r; simpl; rewrite Hg, Ht, <- !(assoc_L (++)); done.
  - exists evs. simpl. rewrite Ht. by rewrite <- (assoc_L (++)).
Qed.

End OrchestratorCalls.

Lemma directive_triggers_search_witness :
  should_search_directly "hello there" = false
  ∧ " hostel rules " ≠ EmptyString
  ∧ lacks "]" " hostel rules " = true
  ∧ llm_invoke (External := directive_llm) (decision_prompt "hello there")
      (world st0)
    = (Ok ("Action: Search [" +:+ " hostel rules " +:+ "]"), tt)
  ∧ clean_terms " hostel rules " = "hostel rules"
  ∧ ∃ evs, trace (snd (run_enhanced_agent (E := directive_llm) "hello there" st0))
           = trace st0 ++ Generated (decision_prompt "hello there")
               :: Retrieved (clean_terms " hostel rules ") :: evs.
Proof.
  assert (H1 : should_search_directly "hello there" = false) by reflexivity.
  assert (H2 : " hostel rules " ≠ EmptyString) by discriminate.
  assert (H3 : lacks "]" " hostel rules " = true) by reflexivity.
  assert (H4 : llm_invoke (External := directive_llm)
                 (decision_prompt "hello there") (world st0)
               = (Ok ("Action: Search [" +:+ " hostel rules " +:+ "]"), tt))
    by reflexivity.
  exact (conj H1 (conj H2 (conj H3 (conj H4 (conj eq_refl
           (directive_triggers_search (E := directive_llm)
              "hello there" " hostel rules " st0 tt H1 H2 H3 H4)))))).
Defined.
